(** * discord-linker-bot: the /link and /resync handlers

    A shallow embedding of [DiscordLinkerBot.handleLinkCommand] and
    [DiscordLinkerBot.handleResyncCommand] (src/index.ts).

    The handlers are [async] methods: every [await] on a collaborator (the
    MariaDB connection, the Discord guild) is a point where the call may
    reject and where another handler of the same process may run.  They are
    therefore embedded as finite trees of awaited calls ([Prog]); a tree is
    given a meaning twice, by running it to completion ([run]) and by
    interleaving two of them at their awaits ([interleave]). *)

From stdpp Require Import base decidable option list strings gmap.

Open Scope string_scope.
Open Scope list_scope.

(** ** Data model *)

(** [interface Player]: a row of the table [players]. *)
Record Player := mkPlayer {
  id : string;
  name : string;
  discord_id : option string;
  link_code : option string;
}.

(** [this.db : mysql.Connection | null]. *)
Variant Connection := connection.

Record DiscordLinkerBot := mkBot {
  db : option Connection;
}.

(** [process.env]: only [DISCORD_ROLE_ID] is read by the handlers. *)
Record ProcessEnv := mkEnv {
  DISCORD_ROLE_ID : option string;
}.

(** The guild an interaction was issued in ([interaction.guild] is [null]
    for a command used outside a guild).  The bot serves one guild, whose
    members and roles are part of the [World] below. *)
Variant Guild := the_guild.

(** [ChatInputCommandInteraction], as far as the handlers read it:
    [interaction.options.getString('code', true)], [interaction.user.id]
    and [interaction.guild]. *)
Record Interaction := mkInteraction {
  option_code : string;
  user_id : string;
  guild : option Guild;
}.

(** A [GuildMember] as returned by [guild.members.fetch]: the user and the
    ids of the roles of [member.roles.cache]. *)
Record GuildMember := mkMember {
  member_id : string;
  member_roles : gset string;
}.

Record Role := mkRole {
  role_id : string;
}.

(** The message a handler passes to [interaction.reply]; one constructor
    per message of the source.
    - [ReplyDbConnectionError]: 'データベース接続エラーが発生しました…' ([this.db] is null)
    - [ReplyAlreadyLinked]: 'あなたのアカウントは既にリンクされています…'
    - [ReplyInvalidCode]: '無効なリンクコードです…'
    - [ReplyLinked n]: 'リンクが完了しました！Minecraftプレイヤー "n" …'
    - [ReplyLinkError]: 'リンク処理中にエラーが発生しました…' (the [catch] of /link)
    - [ReplyNotLinked]: 'あなたのアカウントはまだリンクされていません…'
    - [ReplyRoleConfigMissing]: 'ロールの設定が見つかりません…'
    - [ReplyRoleNotFound]: 'ロールが見つかりません…'
    - [ReplyAlreadyHasRole]: 'あなたは既にこのロールを持っています。'
    - [ReplyResynced n]: 'ロールの再同期が完了しました！… "n" …'
    - [ReplyResyncError]: '再同期処理中にエラーが発生しました…' (the [catch] of /resync)

    In the words of the specification: [ReplyLinked] is Linked,
    [ReplyAlreadyLinked] AlreadyLinked, [ReplyInvalidCode] InvalidCode,
    [ReplyDbConnectionError] StoreUnavailable, [ReplyNotLinked] NotLinked,
    [ReplyRoleConfigMissing] and [ReplyRoleNotFound] RoleUnavailable,
    [ReplyAlreadyHasRole] AlreadyCurrent, [ReplyResynced] Reconciled.  The
    two [catch] replies are given for any exception, of a query or of the
    guild. *)
Inductive Reply :=
| ReplyDbConnectionError
| ReplyAlreadyLinked
| ReplyInvalidCode
| ReplyLinked (player_name : string)
| ReplyLinkError
| ReplyNotLinked
| ReplyRoleConfigMissing
| ReplyRoleNotFound
| ReplyAlreadyHasRole
| ReplyResynced (player_name : string)
| ReplyResyncError.

(** ** Awaited calls *)

(** The calls the handlers await, indexed by the type of the value the
    promise is fulfilled with. *)
Inductive Event : Type → Type :=
| DbSelectByDiscordId (userId : string) : Event (list Player)
    (* 'SELECT * FROM players WHERE discord_id = ?' *)
| DbSelectByLinkCode (linkCode : string) : Event (list Player)
    (* 'SELECT * FROM players WHERE link_code = ? AND discord_id IS NULL' *)
| DbUpdateLink (userId playerId : string) : Event unit
    (* 'UPDATE players SET discord_id = ?, link_code = NULL WHERE id = ?' *)
| MembersFetch (userId : string) : Event GuildMember
    (* guild.members.fetch(userId) *)
| RolesFetch (roleId : string) : Event (option Role)
    (* guild.roles.fetch(roleId) *)
| RolesAdd (member : GuildMember) (role : Role) : Event unit.
    (* member.roles.add(role) *)

(** The same calls without their type index, for the log of a run. *)
Inductive Call :=
| CallSelectByDiscordId (userId : string)
| CallSelectByLinkCode (linkCode : string)
| CallUpdateLink (userId playerId : string)
| CallMembersFetch (userId : string)
| CallRolesFetch (roleId : string)
| CallRolesAdd (userId roleId : string).

Definition call_of {X} (e : Event X) : Call :=
  match e with
  | DbSelectByDiscordId u => CallSelectByDiscordId u
  | DbSelectByLinkCode c => CallSelectByLinkCode c
  | DbUpdateLink u p => CallUpdateLink u p
  | MembersFetch u => CallMembersFetch u
  | RolesFetch r => CallRolesFetch r
  | RolesAdd m r => CallRolesAdd (member_id m) (role_id r)
  end.

Definition is_grant (c : Call) : bool :=
  match c with CallRolesAdd _ _ => true | _ => false end.

Definition is_update (c : Call) : bool :=
  match c with CallUpdateLink _ _ => true | _ => false end.

(** How an awaited promise settles. *)
Inductive result (X : Type) :=
| Fulfilled (x : X)
| Rejected.
Arguments Fulfilled {X} x.
Arguments Rejected {X}.

(** ** Asynchronous programs *)

(** The body of an [async] function: it returns, throws, or awaits a call
    and continues with the way the promise settled. *)
Inductive Prog (A : Type) : Type :=
| Ret (a : A)
| Throw
| Await {X : Type} (e : Event X) (k : result X → Prog A).
Arguments Ret {A} a.
Arguments Throw {A}.
Arguments Await {A X} e k.

Fixpoint bind {A B} (p : Prog A) (f : A → Prog B) : Prog B :=
  match p with
  | Ret a => f a
  | Throw => Throw
  | Await e k => Await e (λ r, bind (k r) f)
  end.

#[global] Instance Prog_ret : MRet Prog := @Ret.
#[global] Instance Prog_bind : MBind Prog := λ A B f p, bind p f.

(** [await e]: the value of a fulfilled promise; a rejected one throws. *)
Definition await {X} (e : Event X) : Prog X :=
  Await e (λ r, match r with Fulfilled x => Ret x | Rejected => Throw end).

(** [try { p } catch (error) { h }]. *)
Fixpoint try_catch {A} (p h : Prog A) : Prog A :=
  match p with
  | Ret a => Ret a
  | Throw => h
  | Await e k => Await e (λ r, try_catch (k r) h)
  end.

(** JavaScript truthiness of [string | undefined]: the empty string is
    falsy. *)
Definition truthy (s : option string) : option string :=
  match s with
  | Some "" => None
  | _ => s
  end.

(** ** The handlers *)

(** The block "Assign role to user" of [handleLinkCommand]:
    [if (guild && process.env.DISCORD_ROLE_ID) { ... }]. *)
Definition assign_role (env : ProcessEnv) (interaction : Interaction)
    (userId : string) : Prog unit :=
  match guild interaction, truthy (DISCORD_ROLE_ID env) with
  | Some _, Some roleId =>
      member ← await (MembersFetch userId);
      role ← await (RolesFetch roleId);
      match role with
      | Some role => await (RolesAdd member role)
      | None => mret ()
      end
  | _, _ => mret ()
  end.

(** [handleLinkCommand].  The result is the message passed to
    [interaction.reply]; replying itself is taken not to fail. *)
Definition handleLinkCommand (bot : DiscordLinkerBot) (env : ProcessEnv)
    (interaction : Interaction) : Prog Reply :=
  let linkCode := option_code interaction in
  let userId := user_id interaction in
  match db bot with
  | None => mret ReplyDbConnectionError
  | Some _ =>
    try_catch
      (existingRows ← await (DbSelectByDiscordId userId);
       if bool_decide (0 < length existingRows) then mret ReplyAlreadyLinked
       else
         playerRows ← await (DbSelectByLinkCode linkCode);
         match playerRows with
         | [] => mret ReplyInvalidCode
         | player :: _ =>
             _ ← await (DbUpdateLink userId (id player));
             _ ← assign_role env interaction userId;
             mret (ReplyLinked (name player))
         end)
      (mret ReplyLinkError)
  end.

(** [handleResyncCommand]. *)
Definition handleResyncCommand (bot : DiscordLinkerBot) (env : ProcessEnv)
    (interaction : Interaction) : Prog Reply :=
  let userId := user_id interaction in
  match db bot with
  | None => mret ReplyDbConnectionError
  | Some _ =>
    try_catch
      (playerRows ← await (DbSelectByDiscordId userId);
       match playerRows with
       | [] => mret ReplyNotLinked
       | player :: _ =>
           match guild interaction, truthy (DISCORD_ROLE_ID env) with
           | Some _, Some roleId =>
               member ← await (MembersFetch userId);
               role ← await (RolesFetch roleId);
               match role with
               | None => mret ReplyRoleNotFound
               | Some role =>
                   if bool_decide (role_id role ∈ member_roles member)
                   then mret ReplyAlreadyHasRole
                   else
                     _ ← await (RolesAdd member role);
                     mret (ReplyResynced (name player))
               end
           | _, _ => mret ReplyRoleConfigMissing
           end
       end)
      (mret ReplyResyncError)
  end.

(** ** The collaborators *)

(** The state the handlers act on.
    - [players]: the rows of the table [players], in the order a [SELECT]
      returns them.
    - [members]: the members of the guild, with the ids of the roles each
      holds; [roles]: the ids of the roles of the guild.
    - [faults]: for each coming call, whether it rejects for a reason of
      its own (connection lost, Discord API error, missing permission);
      a call beyond the end of the list does not.
    - [trace]: the calls made so far, oldest first. *)
Record World := mkWorld {
  players : list Player;
  members : gmap string (gset string);
  roles : gset string;
  faults : list bool;
  trace : list Call;
}.

Definition set_players (ps : list Player) (w : World) : World :=
  mkWorld ps (members w) (roles w) (faults w) (trace w).

Definition set_members (ms : gmap string (gset string)) (w : World) : World :=
  mkWorld (players w) ms (roles w) (faults w) (trace w).

(** Whether the [n]-th coming call rejects for a reason of its own. *)
Definition fault_at (n : nat) (w : World) : bool := nth n (faults w) false.

(** A call is logged and takes its entry off [faults]. *)
Definition tick (c : Call) (w : World) : World :=
  mkWorld (players w) (members w) (roles w) (tail (faults w)) (trace w ++ [c]).

(** The row an [UPDATE ... SET discord_id = ?, link_code = NULL] leaves. *)
Definition link_row (userId : string) (p : Player) : Player :=
  mkPlayer (id p) (name p) (Some userId) None.

(** 'SELECT * FROM players WHERE discord_id = ?'.  The comparisons of the
    queries are equality of strings. *)
Definition select_by_discord_id (userId : string) (ps : list Player) : list Player :=
  filter (λ p, discord_id p = Some userId) ps.

(** 'SELECT * FROM players WHERE link_code = ? AND discord_id IS NULL' *)
Definition select_by_link_code (linkCode : string) (ps : list Player) : list Player :=
  filter (λ p, link_code p = Some linkCode ∧ discord_id p = None) ps.

(** 'UPDATE players SET discord_id = ?, link_code = NULL WHERE id = ?' *)
Definition update_link (userId playerId : string) (ps : list Player) : list Player :=
  (λ p, if decide (id p = playerId) then link_row userId p else p) <$> ps.

(** What a call that does not reject for a reason of its own does.
    [guild.members.fetch] rejects for a user who is not a member of the
    guild; [guild.roles.fetch] is fulfilled with [null] for an id that is
    no role of the guild; [member.roles.add] makes the member hold the
    role, and a later [guild.members.fetch] shows it. *)
Definition effect {X} (e : Event X) (w : World) : result X * World :=
  match e in Event X return result X * World with
  | DbSelectByDiscordId u => (Fulfilled (select_by_discord_id u (players w)), w)
  | DbSelectByLinkCode c => (Fulfilled (select_by_link_code c (players w)), w)
  | DbUpdateLink u pid => (Fulfilled (), set_players (update_link u pid (players w)) w)
  | MembersFetch u =>
      match members w !! u with
      | Some rs => (Fulfilled (mkMember u rs), w)
      | None => (Rejected, w)
      end
  | RolesFetch r =>
      (Fulfilled (if bool_decide (r ∈ roles w) then Some (mkRole r) else None), w)
  | RolesAdd m r =>
      match members w !! member_id m with
      | Some rs =>
          (Fulfilled (),
           set_members (<[member_id m := {[role_id r]} ∪ rs]> (members w)) w)
      | None => (Rejected, w)
      end
  end.

Definition perform {X} (e : Event X) (w : World) : result X * World :=
  let w1 := tick (call_of e) w in
  if fault_at 0 w then (Rejected, w1) else effect e w1.

(** ** Running a handler *)

(** A handler run to completion, no other handler running meanwhile. *)
Fixpoint run {A} (p : Prog A) (w : World) : result A * World :=
  match p with
  | Ret a => (Fulfilled a, w)
  | Throw => (Rejected, w)
  | Await e k => let '(r, w1) := perform e w in run (k r) w1
  end.

(** One handler advanced to its next [await]. *)
Definition step {A} (p : Prog A) (w : World) : Prog A * World :=
  match p with
  | Await e k => let '(r, w1) := perform e w in (k r, w1)
  | _ => (p, w)
  end.

(** Which of two handlers in flight makes the next call. *)
Inductive Turn := First | Second.

(** Two handlers in flight in one process: the calls are made in the order
    of [sched], each handler keeping its own order; when [sched] is used up
    the first handler runs to completion, then the second. *)
Fixpoint interleave {A B} (sched : list Turn) (p1 : Prog A) (p2 : Prog B)
    (w : World) : result A * result B * World :=
  match sched with
  | [] =>
      let '(r1, w1) := run p1 w in
      let '(r2, w2) := run p2 w1 in
      (r1, r2, w2)
  | First :: sched =>
      let '(p1', w1) := step p1 w in interleave sched p1' p2 w1
  | Second :: sched =>
      let '(p2', w1) := step p2 w in interleave sched p1 p2' w1
  end.

(** Handlers run one after another. *)
Inductive Command :=
| Link (interaction : Interaction)
| Resync (interaction : Interaction).

Definition handle (bot : DiscordLinkerBot) (env : ProcessEnv) (c : Command) : Prog Reply :=
  match c with
  | Link i => handleLinkCommand bot env i
  | Resync i => handleResyncCommand bot env i
  end.

Fixpoint run_all (bot : DiscordLinkerBot) (env : ProcessEnv) (cs : list Command)
    (w : World) : World :=
  match cs with
  | [] => w
  | c :: cs => run_all bot env cs (run (handle bot env c) w).2
  end.

(** ** Properties of the store *)

(** At most one row holds a given non-null [discord_id]. *)
Definition links_unique (ps : list Player) : Prop :=
  ∀ i j p q u, ps !! i = Some p → ps !! j = Some q →
    discord_id p = Some u → discord_id q = Some u → i = j.

(** [id VARCHAR(36) PRIMARY KEY]. *)
Definition primary_key (ps : list Player) : Prop :=
  ∀ i j p q, ps !! i = Some p → ps !! j = Some q → id p = id q → i = j.

(** No coming call rejects for a reason of its own. *)
Definition no_faults (w : World) : Prop := ∀ n, fault_at n w = false.

(** Calls of a run: what [w'] logged beyond [w]. *)
Definition calls_since (w w' : World) : list Call :=
  drop (length (trace w)) (trace w').

(** A handler all of whose calls satisfy [P], however they settle. *)
Inductive makes_only {A} (P : Call → Prop) : Prog A → Prop :=
| makes_only_ret a : makes_only P (Ret a)
| makes_only_throw : makes_only P Throw
| makes_only_await X (e : Event X) k :
    P (call_of e) → (∀ r, makes_only P (k r)) → makes_only P (Await e k).

(** The calls of a log that are role grants, and those that are updates. *)
Definition grants (cs : list Call) : list Call := filter (λ c, is_grant c = true) cs.
Definition updates (cs : list Call) : list Call := filter (λ c, is_update c = true) cs.

(** The world after the three database calls of a [handleLinkCommand] that
    found no row of the requester, found [player] first for the code, and
    made its [UPDATE]. *)
Definition committed (interaction : Interaction) (player : Player) (w : World) : World :=
  let userId := user_id interaction in
  set_players (update_link userId (id player) (players w))
    (tick (CallUpdateLink userId (id player))
       (tick (CallSelectByLinkCode (option_code interaction))
          (tick (CallSelectByDiscordId userId) w))).

(** ** A handler in flight *)

(** [handleLinkCommand] suspended at its second [await]: the lookup by
    [discord_id] found no row of the requester. *)
Definition link_after_lookup (env : ProcessEnv) (interaction : Interaction) : Prog Reply :=
  let linkCode := option_code interaction in
  let userId := user_id interaction in
  try_catch
    (playerRows ← await (DbSelectByLinkCode linkCode);
     match playerRows with
     | [] => mret ReplyInvalidCode
     | player :: _ =>
         _ ← await (DbUpdateLink userId (id player));
         _ ← assign_role env interaction userId;
         mret (ReplyLinked (name player))
     end)
    (mret ReplyLinkError).

(** [handleLinkCommand] suspended at its third [await]: the lookup by code
    returned [player] first; what is left is the [UPDATE] for the id of
    [player] and the role block. *)
Definition link_after_code_lookup (env : ProcessEnv) (interaction : Interaction)
    (player : Player) : Prog Reply :=
  let userId := user_id interaction in
  try_catch
    (_ ← await (DbUpdateLink userId (id player));
     _ ← assign_role env interaction userId;
     mret (ReplyLinked (name player)))
    (mret ReplyLinkError).

(** ** Scenarios *)

(** The account of the scenarios: unlinked, with a pending code. *)
Definition steve : Player := mkPlayer "a1" "Steve" None (Some "ABC123").

(** A second account of the same owner, with a code of its own. *)
Definition alex : Player := mkPlayer "a2" "Alex" None (Some "XYZ789").

Definition bot_connected : DiscordLinkerBot := mkBot (Some connection).

Definition env_role : ProcessEnv := mkEnv (Some "role1").

(** A guild with the configured role, of which "disc#1" and "disc#2" are
    members without roles; [ps] are the rows of [players] and [fs] the
    calls that fail. *)
Definition scenario (ps : list Player) (fs : list bool) : World :=
  mkWorld ps {[ "disc#1" := ∅; "disc#2" := ∅ ]} {[ "role1" ]} fs [].

(** /link code:[code] by [user] in the guild. *)
Definition link_request (user code : string) : Interaction :=
  mkInteraction code user (Some the_guild).

(** [steve] once linked to "disc#1": the code is consumed. *)
Definition linked_steve : Player := mkPlayer "a1" "Steve" (Some "disc#1") None.

(** /resync by [user] in the guild. *)
Definition resync_request (user : string) : Interaction :=
  mkInteraction "" user (Some the_guild).

(** ** The listener of [start] *)

(** An interaction as the listener of 'interactionCreate' sees it:
    [interaction.isChatInputCommand()], [interaction.commandName], and the
    interaction itself as the handlers read it. *)
Record InteractionEvent := mkInteractionEvent {
  isChatInputCommand : bool;
  commandName : string;
  command : Interaction;
}.

(** [this.client.on('interactionCreate', async interaction => { ... })].
    The result is the reply given, if any. *)
Definition interactionCreate (bot : DiscordLinkerBot) (env : ProcessEnv)
    (interaction : InteractionEvent) : Prog (option Reply) :=
  if negb (isChatInputCommand interaction) then mret None
  else if bool_decide (commandName interaction = "link") then
    r ← handleLinkCommand bot env (command interaction); mret (Some r)
  else if bool_decide (commandName interaction = "resync") then
    r ← handleResyncCommand bot env (command interaction); mret (Some r)
  else mret None.

(** ** The commands of [registerSlashCommands] *)




(** ** Shapes of programs *)

(** A program that does not throw, however its calls settle. *)
Inductive never_throws {A} : Prog A → Prop :=
| never_throws_ret a : never_throws (Ret a)
| never_throws_await X (e : Event X) k :
    (∀ r, never_throws (k r)) → never_throws (Await e k).

(** A program that makes at most [n] calls of the kind [P], however its
    calls settle. *)
Inductive calls_at_most {A} (P : Call → bool) : nat → Prog A → Prop :=
| calls_at_most_ret n a : calls_at_most P n (Ret a)
| calls_at_most_throw n : calls_at_most P n Throw
| calls_at_most_count n X (e : Event X) k :
    P (call_of e) = true → (∀ r, calls_at_most P n (k r)) →
    calls_at_most P (S n) (Await e k)
| calls_at_most_skip n X (e : Event X) k :
    P (call_of e) = false → (∀ r, calls_at_most P n (k r)) →
    calls_at_most P n (Await e k).

(** ** Two handlers in flight, call by call *)

(** The two handlers after the calls of [sched] and the world they left:
    [interleave] without the completion that ends it. *)
Fixpoint advance {A B} (sched : list Turn) (p1 : Prog A) (p2 : Prog B)
    (w : World) : Prog A * Prog B * World :=
  match sched with
  | [] => (p1, p2, w)
  | First :: sched =>
      let '(p1', w1) := step p1 w in advance sched p1' p2 w1
  | Second :: sched =>
      let '(p2', w1) := step p2 w in advance sched p1 p2' w1
  end.

(** A handler that has no call left to make. *)
Definition finished {A} (p : Prog A) : Prop :=
  match p with Await _ _ => False | _ => True end.

(** How a finished handler settled. *)
Definition outcome {A} (p : Prog A) : result A :=
  match p with Ret a => Fulfilled a | _ => Rejected end.

(** Any call. *)
Definition any_call (c : Call) : bool := true.

(** ** Handlers in flight *)

(** Two commands are apart unless both are /link of one requester. *)
Definition apart (c1 c2 : Command) : Prop :=
  match c1, c2 with
  | Link i1, Link i2 => user_id i1 ≠ user_id i2
  | _, _ => True
  end.

(** What happens next in the process: an [interactionCreate] starts the
    handler of a command, or the handler at a position of the pool makes
    its next call.  The pool holds the handlers of the process, each with
    the command it serves, in the order they were started; a finished
    handler stays where it is. *)
Inductive Act :=
| Start (c : Command)
| Next (n : nat).

(** One act: [client.on('interactionCreate', ...)] adds the handler of the
    command to the pool, not yet at its first call; a call of a handler is
    a [step] of it, at the world the calls before have left. *)
Definition act (bot : DiscordLinkerBot) (env : ProcessEnv) (a : Act)
    (pool : list (Command * Prog Reply)) (w : World)
    : list (Command * Prog Reply) * World :=
  match a with
  | Start c => (pool ++ [(c, handle bot env c)], w)
  | Next n =>
      match pool !! n with
      | Some (c, p) => let '(p', w1) := step p w in (<[n := (c, p')]> pool, w1)
      | None => (pool, w)
      end
  end.

(** The pool and the world after the acts of a history. *)
Fixpoint play (bot : DiscordLinkerBot) (env : ProcessEnv) (acts : list Act)
    (pool : list (Command * Prog Reply)) (w : World)
    : list (Command * Prog Reply) * World :=
  match acts with
  | [] => (pool, w)
  | a :: acts =>
      let '(pool1, w1) := act bot env a pool w in play bot env acts pool1 w1
  end.

#[global] Instance finished_dec {A} (p : Prog A) : Decision (finished p).
Proof. destruct p; cbn; apply _. Defined.

(** A /link of the requester [u] is in flight. *)
Definition busy (u : string) (pool : list (Command * Prog Reply)) : bool :=
  existsb (λ cp, match cp.1 with
                 | Link i =>
                     bool_decide (user_id i = u) && bool_decide (¬ finished cp.2)
                 | Resync _ => false
                 end) pool.

(** No /link starts while a /link of its requester is in flight. *)
Fixpoint one_link_each (bot : DiscordLinkerBot) (env : ProcessEnv)
    (acts : list Act) (pool : list (Command * Prog Reply)) (w : World) : bool :=
  match acts with
  | [] => true
  | a :: acts =>
      match a with Start (Link i) => negb (busy (user_id i) pool) | _ => true end
      && let '(pool1, w1) := act bot env a pool w in
         one_link_each bot env acts pool1 w1
  end.

(** Where a handler of the command [c] in flight can be, as far as its
    writes go: it makes no [UPDATE] any more; or it is a [handleLinkCommand]
    not yet started; or one suspended after its lookup by [discord_id], or
    after its lookup by code, no row holding the requester. *)
Inductive in_flight (bot : DiscordLinkerBot) (env : ProcessEnv) (c : Command)
    (w : World) : Prog Reply → Prop :=
| in_flight_quiet p :
    makes_only (λ c, is_update c = false) p → in_flight bot env c w p
| in_flight_fresh i :
    c = Link i → in_flight bot env c w (handleLinkCommand bot env i)
| in_flight_looked i :
    c = Link i →
    select_by_discord_id (user_id i) (players w) = [] →
    in_flight bot env c w (link_after_lookup env i)
| in_flight_holding i R :
    c = Link i →
    select_by_discord_id (user_id i) (players w) = [] →
    in_flight bot env c w (link_after_code_lookup env i R).

(** Every handler of the pool is in flight, and of two /link of one
    requester one has finished. *)
Definition pool_in_flight (bot : DiscordLinkerBot) (env : ProcessEnv)
    (pool : list (Command * Prog Reply)) (w : World) : Prop :=
  (∀ m c p, pool !! m = Some (c, p) → in_flight bot env c w p)
  ∧ ∀ m n i1 i2 p1 p2, m ≠ n →
      pool !! m = Some (Link i1, p1) → pool !! n = Some (Link i2, p2) →
      user_id i1 = user_id i2 → finished p1 ∨ finished p2.

(** ** Two /link with one code, in the abstract *)

Definition is_code_lookup (c : Call) : bool :=
  match c with CallSelectByLinkCode _ => true | _ => false end.

(** The lookups by code and the [UPDATE]s of a log, in the order they were
    made. *)
Definition code_order (cs : list Call) : list Call :=
  filter (λ c, is_code_lookup c || is_update c = true) cs.

(** Where a [handleLinkCommand] in flight is: not started; suspended after
    its lookup by [discord_id]; suspended after its lookup by code, holding
    the row found; past its [UPDATE]; or answered that the code is
    invalid. *)
Inductive LinkStage := Fresh | Looked | Holding | Granting | Refused.

(** What [code_order] keeps of a call: a lookup by code, or the [UPDATE] of
    the first or of the second handler. *)
Inductive Mark := Lookup | Write (t : Turn).

#[global] Instance Turn_eq_dec : EqDecision Turn.
Proof. solve_decision. Defined.
#[global] Instance LinkStage_eq_dec : EqDecision LinkStage.
Proof. solve_decision. Defined.
#[global] Instance Mark_eq_dec : EqDecision Mark.
Proof. solve_decision. Defined.

(** The handler whose [UPDATE] came last. *)
Definition last_writer (ms : list Mark) : option Turn :=
  foldl (λ acc m, match m with Write t => Some t | Lookup => acc end) None ms.

(** One call of the handler [t], at stage [s] after the marks [ms]: its
    next stage and the marks it adds.  A lookup by code made after an
    [UPDATE] finds nothing. *)
Definition stage_step (t : Turn) (s : LinkStage) (ms : list Mark) : LinkStage * list Mark :=
  match s with
  | Fresh => (Looked, [])
  | Looked =>
      (match last_writer ms with Some _ => Refused | None => Holding end, [Lookup])
  | Holding => (Granting, [Write t])
  | Granting => (Granting, [])
  | Refused => (Refused, [])
  end.

Definition race_step (t : Turn) (r : LinkStage * LinkStage * list Mark)
    : LinkStage * LinkStage * list Mark :=
  let '(s1, s2, ms) := r in
  match t with
  | First => ((stage_step First s1 ms).1, s2, ms ++ (stage_step First s1 ms).2)
  | Second => (s1, (stage_step Second s2 ms).1, ms ++ (stage_step Second s2 ms).2)
  end.

(** The first or the second of two. *)
Definition pick {A} (t : Turn) (x y : A) : A :=
  match t with First => x | Second => y end.

(** The stages and marks two /link with one code can reach. *)
Definition race_states : list (LinkStage * LinkStage * list Mark) :=
  [ (Fresh, Fresh, []); (Fresh, Looked, []); (Looked, Fresh, []);
    (Looked, Looked, []);
    (Holding, Fresh, [Lookup]); (Holding, Looked, [Lookup]);
    (Fresh, Holding, [Lookup]); (Looked, Holding, [Lookup]);
    (Holding, Holding, [Lookup; Lookup]);
    (Granting, Fresh, [Lookup; Write First]);
    (Granting, Looked, [Lookup; Write First]);
    (Granting, Holding, [Lookup; Lookup; Write First]);
    (Granting, Refused, [Lookup; Write First; Lookup]);
    (Fresh, Granting, [Lookup; Write Second]);
    (Looked, Granting, [Lookup; Write Second]);
    (Holding, Granting, [Lookup; Lookup; Write Second]);
    (Refused, Granting, [Lookup; Write Second; Lookup]);
    (Granting, Granting, [Lookup; Lookup; Write First; Write Second]);
    (Granting, Granting, [Lookup; Lookup; Write Second; Write First]) ].

(** The role block of a [handleLinkCommand] past its [UPDATE], at each of
    its calls, and the reply after it. *)
Inductive granting (env : ProcessEnv) (i : Interaction) (n : string)
    : Prog Reply → Prop :=
| granting_block :
    granting env i n
      (try_catch (assign_role env i (user_id i) ≫= λ _, mret (ReplyLinked n))
         (mret ReplyLinkError))
| granting_member member roleId :
    member_id member = user_id i →
    guild i ≠ None → truthy (DISCORD_ROLE_ID env) ≠ None →
    granting env i n
      (try_catch
         ((role ← await (RolesFetch roleId);
           match role with
           | Some role => await (RolesAdd member role)
           | None => mret ()
           end) ≫= λ _, mret (ReplyLinked n))
         (mret ReplyLinkError))
| granting_role member role :
    member_id member = user_id i →
    guild i ≠ None → truthy (DISCORD_ROLE_ID env) ≠ None →
    granting env i n
      (try_catch (await (RolesAdd member role) ≫= λ _, mret (ReplyLinked n))
         (mret ReplyLinkError))
| granting_done : granting env i n (Ret (ReplyLinked n)).

(** The handler of [i], whose code finds [R], at the stage [s]. *)
Definition at_stage (bot : DiscordLinkerBot) (env : ProcessEnv) (i : Interaction)
    (R : Player) (s : LinkStage) (p : Prog Reply) : Prop :=
  match s with
  | Fresh => p = handleLinkCommand bot env i
  | Looked => p = link_after_lookup env i
  | Holding => p = link_after_code_lookup env i R
  | Granting => granting env i (name R) p
  | Refused => p = Ret ReplyInvalidCode
  end.

(** The call a mark stands for. *)
Definition mark_call (i1 i2 : Interaction) (R : Player) (m : Mark) : Call :=
  match m with
  | Lookup => CallSelectByLinkCode (option_code i1)
  | Write First => CallUpdateLink (user_id i1) (id R)
  | Write Second => CallUpdateLink (user_id i2) (id R)
  end.

(** The rows after the [UPDATE]s of the marks. *)
Definition rows_after (i1 i2 : Interaction) (R : Player) (ps : list Player)
    (ms : list Mark) : list Player :=
  match last_writer ms with
  | None => ps
  | Some First => update_link (user_id i1) (id R) ps
  | Some Second => update_link (user_id i2) (id R) ps
  end.

(** The role block of [i] can complete in [w]. *)
Definition role_block_can_complete (env : ProcessEnv) (i : Interaction) (w : World) : Prop :=
  guild i = None ∨ truthy (DISCORD_ROLE_ID env) = None
  ∨ is_Some (members w !! user_id i).

(** Two /link with the code of [R], started in a world with the rows [ps]
    and the log [t0], related to their stages and marks. *)
Definition race_sim (bot : DiscordLinkerBot) (env : ProcessEnv)
    (i1 i2 : Interaction) (R : Player) (ps : list Player) (t0 : list Call)
    (c : Prog Reply * Prog Reply * World)
    (a : LinkStage * LinkStage * list Mark) : Prop :=
  at_stage bot env i1 R a.1.1 c.1.1
  ∧ at_stage bot env i2 R a.1.2 c.1.2
  ∧ a ∈ race_states
  ∧ (∃ cs, trace c.2 = t0 ++ cs ∧ code_order cs = mark_call i1 i2 R <$> a.2)
  ∧ players c.2 = rows_after i1 i2 R ps a.2
  ∧ no_faults c.2
  ∧ role_block_can_complete env i1 c.2
  ∧ role_block_can_complete env i2 c.2.

(** ** Equations of [run] *)

Lemma run_bind {A B} (p : Prog A) (f : A → Prog B) (w : World) :
  run (p ≫= f) w =
  match run p w with
  | (Fulfilled a, w1) => run (f a) w1
  | (Rejected, w1) => (Rejected, w1)
  end.
Proof.
  revert w. induction p as [a| |X e k IH]; intros w; try reflexivity.
  change (run (Await e k ≫= f) w)
    with (let '(r, w1) := perform e w in run (k r ≫= f) w1).
  cbn [run]. destruct (perform e w) as [r w1]. apply IH.
Qed.

Lemma run_try_catch {A} (p h : Prog A) (w : World) :
  run (try_catch p h) w =
  match run p w with
  | (Fulfilled a, w1) => (Fulfilled a, w1)
  | (Rejected, w1) => run h w1
  end.
Proof.
  revert w. induction p as [a| |X e k IH]; intros w; try reflexivity.
  cbn [run try_catch]. destruct (perform e w) as [r w1]. apply IH.
Qed.

Lemma run_await {X} (e : Event X) (w : World) : run (await e) w = perform e w.
Proof.
  unfold await. cbn [run]. destruct (perform e w) as [[x|] w1]; reflexivity.
Qed.

Lemma perform_ok {X} (e : Event X) (w : World) :
  fault_at 0 w = false → perform e w = effect e (tick (call_of e) w).
Proof. intros H. unfold perform. rewrite H. reflexivity. Qed.

Lemma perform_fault {X} (e : Event X) (w : World) :
  fault_at 0 w = true → perform e w = (Rejected, tick (call_of e) w).
Proof. intros H. unfold perform. rewrite H. reflexivity. Qed.

Lemma fault_at_tick n c w : fault_at n (tick c w) = fault_at (S n) w.
Proof.
  unfold fault_at, tick. cbn. destruct (faults w) as [|b fs]; [by destruct n|done].
Qed.

Lemma fault_at_set_players n ps w : fault_at n (set_players ps w) = fault_at n w.
Proof. reflexivity. Qed.

Lemma faults_effect {X} (e : Event X) w : faults (effect e w).2 = faults w.
Proof.
  destruct e; cbn; try done.
  - by destruct (members w !! userId).
  - by destruct (members w !! member_id member).
Qed.

Lemma fault_at_perform {X} (e : Event X) n w :
  fault_at n (perform e w).2 = fault_at (S n) w.
Proof.
  unfold perform. destruct (fault_at 0 w).
  - apply fault_at_tick.
  - unfold fault_at at 1. rewrite faults_effect. apply fault_at_tick.
Qed.

Lemma no_faults_tick c w : no_faults w → no_faults (tick c w).
Proof. intros H n. rewrite fault_at_tick. apply H. Qed.

Lemma no_faults_perform {X} (e : Event X) w :
  no_faults w → no_faults (perform e w).2.
Proof. intros H n. rewrite fault_at_perform. apply H. Qed.

Lemma trace_effect {X} (e : Event X) w : trace (effect e w).2 = trace w.
Proof.
  destruct e; cbn; try done.
  - by destruct (members w !! userId).
  - by destruct (members w !! member_id member).
Qed.

Lemma trace_perform {X} (e : Event X) w :
  trace (perform e w).2 = trace w ++ [call_of e].
Proof.
  unfold perform. destruct (fault_at 0 w); [done|]. by rewrite trace_effect.
Qed.

Lemma calls_since_app w w' cs : trace w' = trace w ++ cs → calls_since w w' = cs.
Proof. intros H. unfold calls_since. rewrite H. by rewrite drop_app_length. Qed.

(** ** Programs that make only certain calls *)

Lemma makes_only_bind {A B} P (p : Prog A) (f : A → Prog B) :
  makes_only P p → (∀ a, makes_only P (f a)) → makes_only P (p ≫= f).
Proof.
  intros Hp Hf. induction Hp as [a| |X e k He Hk IH].
  - apply Hf.
  - constructor.
  - change (makes_only P (Await e (λ r, k r ≫= f))). constructor; auto.
Qed.

Lemma makes_only_try_catch {A} P (p h : Prog A) :
  makes_only P p → makes_only P h → makes_only P (try_catch p h).
Proof.
  intros Hp Hh. induction Hp as [a| |X e k He Hk IH]; cbn; try constructor; auto.
Qed.

Lemma makes_only_await_call {X} P (e : Event X) :
  P (call_of e) → makes_only P (await e).
Proof. intros H. constructor; [done|]. intros [x|]; constructor. Qed.

Lemma makes_only_trace {A} P (p : Prog A) w :
  makes_only P p → ∃ cs, trace (run p w).2 = trace w ++ cs ∧ Forall P cs.
Proof.
  intros Hp. revert w. induction Hp as [a| |X e k He Hk IH]; intros w.
  - exists []. by rewrite app_nil_r.
  - exists []. by rewrite app_nil_r.
  - cbn [run]. destruct (perform e w) as [r w1] eqn:E.
    destruct (IH r w1) as (cs & Hcs & HP).
    exists (call_of e :: cs). split; [|by constructor].
    rewrite Hcs. replace w1 with (perform e w).2 by by rewrite E.
    rewrite trace_perform. by rewrite <- app_assoc.
Qed.

Lemma players_perform {X} (e : Event X) w :
  is_update (call_of e) = false → players (perform e w).2 = players w.
Proof.
  intros H. unfold perform. destruct (fault_at 0 w); [done|].
  destruct e; cbn in *; try done.
  - by destruct (members w !! userId).
  - by destruct (members w !! member_id member).
Qed.

Lemma makes_only_players {A} (p : Prog A) w :
  makes_only (λ c, is_update c = false) p → players (run p w).2 = players w.
Proof.
  intros Hp. revert w. induction Hp as [a| |X e k He Hk IH]; intros w; try done.
  cbn [run]. destruct (perform e w) as [r w1] eqn:E.
  rewrite IH. replace w1 with (perform e w).2 by by rewrite E.
  by apply players_perform.
Qed.

Ltac only_calls :=
  repeat first
    [ apply makes_only_ret
    | apply makes_only_throw
    | apply makes_only_try_catch
    | apply makes_only_await_call; reflexivity
    | apply makes_only_bind
    | intros ?
    | case_match ].

Lemma assign_role_no_update env i u :
  makes_only (λ c, is_update c = false) (assign_role env i u).
Proof. unfold assign_role. only_calls. Qed.

Lemma handleResyncCommand_no_update bot env i :
  makes_only (λ c, is_update c = false) (handleResyncCommand bot env i).
Proof. unfold handleResyncCommand. only_calls. Qed.

(** ** The role reconciler, [handleResyncCommand] *)

(** C9. Whatever the interaction, the state of the store and of the guild,
    the calls that reject and the reply given, the rows of [players] after
    [handleResyncCommand] are the rows before it: the handler makes no
    [UPDATE]. *)
Theorem handleResyncCommand_store_frame bot env i w :
  players (run (handleResyncCommand bot env i) w).2 = players w
  ∧ ∃ cs, trace (run (handleResyncCommand bot env i) w).2 = trace w ++ cs
          ∧ Forall (λ c, is_update c = false) cs.
Proof.
  split.
  - apply makes_only_players, handleResyncCommand_no_update.
  - apply makes_only_trace, handleResyncCommand_no_update.
Qed.

(** ** The queries *)

Lemma select_by_discord_id_nil u ps :
  (∀ p, p ∈ ps → discord_id p ≠ Some u) → select_by_discord_id u ps = [].
Proof.
  intros H. unfold select_by_discord_id.
  induction ps as [|p ps IH]; [done|].
  rewrite filter_cons. case_decide as Hp.
  - exfalso. apply (H p); [left|done].
  - apply IH. intros q Hq. apply H. by right.
Qed.

Lemma select_by_link_code_nil c ps :
  (∀ p, p ∈ ps → ¬ (link_code p = Some c ∧ discord_id p = None)) →
  select_by_link_code c ps = [].
Proof.
  intros H. unfold select_by_link_code.
  induction ps as [|p ps IH]; [done|].
  rewrite filter_cons. case_decide as Hp.
  - exfalso. apply (H p); [left|done].
  - apply IH. intros q Hq. apply H. by right.
Qed.

Lemma select_by_link_code_cons c ps p rest :
  select_by_link_code c ps = p :: rest →
  p ∈ ps ∧ link_code p = Some c ∧ discord_id p = None.
Proof.
  intros H. assert (Hin : p ∈ select_by_link_code c ps) by (rewrite H; left).
  apply list_elem_of_filter in Hin. tauto.
Qed.

(** C8. When no row of [players] has the requester's [discord_id] (and the
    bot holds a connection whose query does not fail), [handleResyncCommand]
    replies that the account is not linked, its only call is the lookup by
    [discord_id] (so no role is granted), and it leaves the rows of
    [players] and the roles of the guild members as they were. *)
Theorem handleResyncCommand_not_linked bot env i w :
  db bot = Some connection →
  fault_at 0 w = false →
  (∀ p, p ∈ players w → discord_id p ≠ Some (user_id i)) →
  (run (handleResyncCommand bot env i) w).1 = Fulfilled ReplyNotLinked
  ∧ calls_since w (run (handleResyncCommand bot env i) w).2
      = [CallSelectByDiscordId (user_id i)]
  ∧ grants (calls_since w (run (handleResyncCommand bot env i) w).2) = []
  ∧ players (run (handleResyncCommand bot env i) w).2 = players w
  ∧ members (run (handleResyncCommand bot env i) w).2 = members w.
Proof.
  intros Hdb Hf Hnone.
  assert (E : run (handleResyncCommand bot env i) w
              = (Fulfilled ReplyNotLinked, tick (CallSelectByDiscordId (user_id i)) w)).
  { unfold handleResyncCommand. rewrite Hdb.
    rewrite run_try_catch, run_bind, run_await, perform_ok by done.
    cbn [effect call_of players tick].
    by rewrite (select_by_discord_id_nil _ _ Hnone). }
  rewrite E. cbn [fst snd].
  rewrite (calls_since_app w _ [CallSelectByDiscordId (user_id i)]) by done.
  done.
Qed.

Lemma select_by_discord_id_pos u ps p :
  p ∈ ps → discord_id p = Some u → 0 < length (select_by_discord_id u ps).
Proof.
  intros Hin Hp.
  assert (H : p ∈ select_by_discord_id u ps) by by apply list_elem_of_filter.
  destruct (select_by_discord_id u ps); [by apply not_elem_of_nil in H|cbn; lia].
Qed.

(** ** The link resolver, [handleLinkCommand] *)

(** C5. When a row of [players] has the requester's [discord_id] (and the
    bot holds a connection whose query does not fail), then for every
    submitted code [handleLinkCommand] replies that the account is already
    linked; its only call is the lookup by [discord_id], so the lookup by
    code is not reached and no [UPDATE] is made: the rows of [players] are
    as they were. *)
Theorem handleLinkCommand_already_linked bot env i w p :
  db bot = Some connection →
  fault_at 0 w = false →
  p ∈ players w →
  discord_id p = Some (user_id i) →
  (run (handleLinkCommand bot env i) w).1 = Fulfilled ReplyAlreadyLinked
  ∧ calls_since w (run (handleLinkCommand bot env i) w).2
      = [CallSelectByDiscordId (user_id i)]
  ∧ players (run (handleLinkCommand bot env i) w).2 = players w.
Proof.
  intros Hdb Hf Hin Hp.
  assert (E : run (handleLinkCommand bot env i) w
              = (Fulfilled ReplyAlreadyLinked, tick (CallSelectByDiscordId (user_id i)) w)).
  { unfold handleLinkCommand. rewrite Hdb.
    rewrite run_try_catch, run_bind, run_await, perform_ok by done.
    cbn [effect call_of players tick].
    rewrite bool_decide_eq_true_2; [done|].
    by eapply select_by_discord_id_pos. }
  rewrite E. cbn [fst snd].
  by rewrite (calls_since_app w _ [CallSelectByDiscordId (user_id i)]).
Qed.

Lemma handleLinkCommand_run_invalid_code bot env i w :
  db bot = Some connection →
  fault_at 0 w = false →
  fault_at 1 w = false →
  (∀ p, p ∈ players w → discord_id p ≠ Some (user_id i)) →
  (∀ p, p ∈ players w →
        ¬ (link_code p = Some (option_code i) ∧ discord_id p = None)) →
  run (handleLinkCommand bot env i) w
  = (Fulfilled ReplyInvalidCode,
     tick (CallSelectByLinkCode (option_code i))
       (tick (CallSelectByDiscordId (user_id i)) w)).
Proof.
  intros Hdb Hf0 Hf1 Hnone Hcode.
  unfold handleLinkCommand. rewrite Hdb.
  rewrite run_try_catch, run_bind, run_await, perform_ok by done.
  cbn [effect call_of players tick].
  rewrite (select_by_discord_id_nil _ _ Hnone).
  rewrite bool_decide_eq_false_2 by (cbn; lia).
  rewrite run_bind, run_await, perform_ok by by rewrite fault_at_tick.
  cbn [effect call_of players tick].
  by rewrite (select_by_link_code_nil _ _ Hcode).
Qed.

(** C6. When no row of [players] has the requester's [discord_id] and no
    row has both [link_code] equal to the submitted code and a null
    [discord_id] (a row whose code was consumed has a null [link_code]),
    and the bot holds a connection whose two queries do not fail, then
    [handleLinkCommand] replies that the code is invalid after the two
    lookups, without an [UPDATE]: the rows of [players] are as they were. *)
Theorem handleLinkCommand_invalid_code bot env i w :
  db bot = Some connection →
  fault_at 0 w = false →
  fault_at 1 w = false →
  (∀ p, p ∈ players w → discord_id p ≠ Some (user_id i)) →
  (∀ p, p ∈ players w →
        ¬ (link_code p = Some (option_code i) ∧ discord_id p = None)) →
  (run (handleLinkCommand bot env i) w).1 = Fulfilled ReplyInvalidCode
  ∧ calls_since w (run (handleLinkCommand bot env i) w).2
      = [CallSelectByDiscordId (user_id i); CallSelectByLinkCode (option_code i)]
  ∧ players (run (handleLinkCommand bot env i) w).2 = players w.
Proof.
  intros Hdb Hf0 Hf1 Hnone Hcode.
  rewrite handleLinkCommand_run_invalid_code by done. cbn [fst snd].
  rewrite (calls_since_app w _
    [CallSelectByDiscordId (user_id i); CallSelectByLinkCode (option_code i)]).
  - done.
  - cbn. by rewrite <- app_assoc.
Qed.

(** The run of a [handleLinkCommand] whose three database calls succeed:
    the reply is decided by the role block alone. *)
Lemma handleLinkCommand_commit bot env i w R rest :
  db bot = Some connection →
  fault_at 0 w = false → fault_at 1 w = false → fault_at 2 w = false →
  select_by_discord_id (user_id i) (players w) = [] →
  select_by_link_code (option_code i) (players w) = R :: rest →
  run (handleLinkCommand bot env i) w =
  match run (assign_role env i (user_id i)) (committed i R w) with
  | (Fulfilled _, w') => (Fulfilled (ReplyLinked (name R)), w')
  | (Rejected, w') => (Fulfilled ReplyLinkError, w')
  end.
Proof.
  intros Hdb Hf0 Hf1 Hf2 Hnone Hcode.
  unfold handleLinkCommand. rewrite Hdb.
  rewrite run_try_catch, run_bind, run_await, perform_ok by done.
  cbn [effect call_of players tick]. rewrite Hnone.
  rewrite bool_decide_eq_false_2 by (cbn; lia).
  rewrite run_bind, run_await, perform_ok by by rewrite fault_at_tick.
  cbn [effect call_of players tick]. rewrite Hcode.
  rewrite run_bind, run_await, perform_ok by by rewrite !fault_at_tick.
  cbn [effect call_of players tick].
  rewrite run_bind. fold (committed i R w).
  by destruct (run (assign_role env i (user_id i)) (committed i R w)) as [[[]|] w'].
Qed.

Lemma committed_trace i R w :
  trace (committed i R w)
  = trace w ++ [CallSelectByDiscordId (user_id i);
                CallSelectByLinkCode (option_code i);
                CallUpdateLink (user_id i) (id R)].
Proof. cbn. by rewrite <- !app_assoc. Qed.

Lemma committed_fault_at n i R w : fault_at n (committed i R w) = fault_at (3 + n) w.
Proof. unfold committed. by rewrite fault_at_set_players, !fault_at_tick. Qed.

Lemma committed_no_faults i R w : no_faults w → no_faults (committed i R w).
Proof. intros H n. rewrite committed_fault_at. apply H. Qed.

(** ** The role block of [handleLinkCommand] *)

Lemma assign_role_skipped env i u w :
  guild i = None ∨ truthy (DISCORD_ROLE_ID env) = None →
  run (assign_role env i u) w = (Fulfilled (), w).
Proof.
  intros [H|H]; unfold assign_role; rewrite H; [done|].
  by destruct (guild i).
Qed.

Lemma assign_role_null_role env i u w roleId rs :
  guild i = Some the_guild →
  truthy (DISCORD_ROLE_ID env) = Some roleId →
  fault_at 0 w = false → fault_at 1 w = false →
  members w !! u = Some rs →
  roleId ∉ roles w →
  run (assign_role env i u) w
  = (Fulfilled (), tick (CallRolesFetch roleId) (tick (CallMembersFetch u) w)).
Proof.
  intros Hg Hr Hf0 Hf1 Hm Hnot. unfold assign_role. rewrite Hg, Hr.
  rewrite run_bind, run_await, perform_ok by done.
  cbn [effect call_of members tick]. rewrite Hm.
  rewrite run_bind, run_await, perform_ok by by rewrite fault_at_tick.
  cbn [effect call_of roles tick].
  by rewrite bool_decide_eq_false_2.
Qed.

Lemma assign_role_granted env i u w roleId rs :
  guild i = Some the_guild →
  truthy (DISCORD_ROLE_ID env) = Some roleId →
  fault_at 0 w = false → fault_at 1 w = false → fault_at 2 w = false →
  members w !! u = Some rs →
  roleId ∈ roles w →
  run (assign_role env i u) w
  = (Fulfilled (),
     set_members (<[u := {[roleId]} ∪ rs]> (members w))
       (tick (CallRolesAdd u roleId)
          (tick (CallRolesFetch roleId) (tick (CallMembersFetch u) w)))).
Proof.
  intros Hg Hr Hf0 Hf1 Hf2 Hm Hin. unfold assign_role. rewrite Hg, Hr.
  rewrite run_bind, run_await, perform_ok by done.
  cbn [effect call_of members tick]. rewrite Hm.
  rewrite run_bind, run_await, perform_ok by by rewrite fault_at_tick.
  cbn [effect call_of roles tick].
  rewrite bool_decide_eq_true_2 by done.
  rewrite run_await, perform_ok by by rewrite !fault_at_tick.
  cbn [effect call_of members tick member_id role_id]. by rewrite Hm.
Qed.

Lemma assign_role_fulfilled env i u w :
  no_faults w →
  guild i = None ∨ truthy (DISCORD_ROLE_ID env) = None ∨ is_Some (members w !! u) →
  (run (assign_role env i u) w).1 = Fulfilled ().
Proof.
  intros Hf [H|[H|[rs Hm]]].
  - by rewrite assign_role_skipped by auto.
  - by rewrite assign_role_skipped by auto.
  - destruct (guild i) as [[]|] eqn:Hg; [|by rewrite assign_role_skipped by auto].
    destruct (truthy (DISCORD_ROLE_ID env)) as [roleId|] eqn:Hr;
      [|by rewrite assign_role_skipped by auto].
    destruct (decide (roleId ∈ roles w)).
    + by erewrite assign_role_granted.
    + by erewrite assign_role_null_role.
Qed.

(** ** The [UPDATE] *)

Lemma update_link_lookup u pid ps n :
  update_link u pid ps !! n
  = (λ p, if decide (id p = pid) then link_row u p else p) <$> ps !! n.
Proof. unfold update_link. apply list_lookup_fmap. Qed.

(** Under the primary key, the [UPDATE] for the id of the row at index [n]
    replaces that row and no other. *)
Lemma update_link_insert u ps n R :
  primary_key ps → ps !! n = Some R →
  update_link u (id R) ps = <[n := link_row u R]> ps.
Proof.
  intros Hpk Hn. apply list_eq. intros m.
  rewrite update_link_lookup.
  destruct (decide (n = m)) as [<-|Hne].
  - rewrite list_lookup_insert_eq by by eapply lookup_lt_Some.
    rewrite Hn. cbn. by rewrite decide_True.
  - rewrite list_lookup_insert_ne by done.
    destruct (ps !! m) as [q|] eqn:Hm; [cbn|done].
    case_decide as Hid; [|done].
    exfalso. apply Hne. symmetry. by eapply Hpk.
Qed.

Lemma update_link_primary_key u pid ps :
  primary_key ps → primary_key (update_link u pid ps).
Proof.
  intros Hpk m n p q Hm Hn Hid.
  rewrite update_link_lookup in Hm, Hn.
  destruct (ps !! m) as [p0|] eqn:Hm0; [|done].
  destruct (ps !! n) as [q0|] eqn:Hn0; [|done].
  cbn in Hm, Hn. simplify_eq.
  apply (Hpk m n p0 q0); [done..|].
  by repeat case_decide.
Qed.

(** Lookup-before-write: when no row holds [u], the [UPDATE] of one id
    keeps the links unique. *)
Lemma update_link_links_unique u pid ps :
  primary_key ps → links_unique ps →
  select_by_discord_id u ps = [] →
  links_unique (update_link u pid ps).
Proof.
  intros Hpk Hun Hnone m n p q v Hm Hn Hp Hq.
  rewrite update_link_lookup in Hm, Hn.
  destruct (ps !! m) as [p0|] eqn:Hm0; [|done].
  destruct (ps !! n) as [q0|] eqn:Hn0; [|done].
  cbn in Hm, Hn. simplify_eq.
  assert (Hfree : ∀ k r, ps !! k = Some r → discord_id r ≠ Some u).
  { intros k r Hk Hr.
    eapply (filter_nil_not_elem_of _ _ r Hnone); [done|].
    by eapply list_elem_of_lookup_2. }
  destruct (decide (id p0 = pid)) as [Hp0|Hp0], (decide (id q0 = pid)) as [Hq0|Hq0];
    cbn in Hp, Hq.
  - apply (Hpk m n p0 q0); congruence.
  - simplify_eq. by destruct (Hfree n q0).
  - simplify_eq. by destruct (Hfree m p0).
  - by apply (Hun m n p0 q0 v).
Qed.

Lemma updates_none cs : Forall (λ c, is_update c = false) cs → updates cs = [].
Proof.
  unfold updates. induction 1 as [|c cs Hc _ IH]; [done|].
  rewrite filter_cons, decide_False by congruence. exact IH.
Qed.

(** The calls of a committing [handleLinkCommand]: the two lookups, the
    [UPDATE], then calls that are no [UPDATE]. *)
Lemma handleLinkCommand_commit_frame env i R w :
  players (run (assign_role env i (user_id i)) (committed i R w)).2
    = update_link (user_id i) (id R) (players w)
  ∧ updates (calls_since w (run (assign_role env i (user_id i)) (committed i R w)).2)
    = [CallUpdateLink (user_id i) (id R)].
Proof.
  split.
  - by rewrite makes_only_players by apply assign_role_no_update.
  - destruct (makes_only_trace _ _ (committed i R w) (assign_role_no_update env i (user_id i)))
      as (cs & Hcs & Hno).
    rewrite committed_trace, <- app_assoc in Hcs.
    rewrite (calls_since_app _ _ _ Hcs).
    unfold updates. rewrite filter_app. fold (updates cs).
    rewrite (updates_none cs) by done. reflexivity.
Qed.

(** C2. Let no row of [players] have the requester's [discord_id] and let
    [R] be the first row the lookup by code returns (so [R] has the
    submitted [link_code] and a null [discord_id]); let no call fail and the
    role block be able to complete.  Then [handleLinkCommand] replies that
    the link is complete, naming [R]; it makes exactly one [UPDATE]; and
    the rows of [players] afterwards are the rows before with [R] alone
    replaced, at its place, by the row of the same [id] and [name] whose
    [discord_id] is the requester and whose [link_code] is null. *)
Theorem handleLinkCommand_linked bot env i w R rest :
  db bot = Some connection →
  no_faults w →
  primary_key (players w) →
  (∀ p, p ∈ players w → discord_id p ≠ Some (user_id i)) →
  select_by_link_code (option_code i) (players w) = R :: rest →
  guild i = None ∨ truthy (DISCORD_ROLE_ID env) = None
    ∨ is_Some (members w !! user_id i) →
  (run (handleLinkCommand bot env i) w).1 = Fulfilled (ReplyLinked (name R))
  ∧ link_code R = Some (option_code i) ∧ discord_id R = None
  ∧ updates (calls_since w (run (handleLinkCommand bot env i) w).2)
      = [CallUpdateLink (user_id i) (id R)]
  ∧ ∃ n, players w !! n = Some R
         ∧ players (run (handleLinkCommand bot env i) w).2
           = <[n := mkPlayer (id R) (name R) (Some (user_id i)) None]> (players w).
Proof.
  intros Hdb Hf Hpk Hnone Hcode Hrole.
  destruct (select_by_link_code_cons _ _ _ _ Hcode) as (Hin & Hc & Hd).
  destruct (handleLinkCommand_commit_frame env i R w) as [Hpl Hup].
  rewrite (handleLinkCommand_commit bot env i w R rest)
    by auto using select_by_discord_id_nil.
  pose proof (assign_role_fulfilled env i (user_id i) (committed i R w)
                (committed_no_faults _ _ _ Hf) Hrole) as Hok.
  destruct (run (assign_role env i (user_id i)) (committed i R w)) as [[[]|] w'];
    [|done].
  cbn [fst snd] in *. repeat split; try done.
  apply list_elem_of_lookup_1 in Hin as [n Hn]. exists n. split; [done|].
  rewrite Hpl. by apply update_link_insert.
Qed.

Lemma update_link_at u ps n R :
  ps !! n = Some R → update_link u (id R) ps !! n = Some (link_row u R).
Proof.
  intros Hn. rewrite update_link_lookup, Hn. cbn. by rewrite decide_True.
Qed.

(** The run of a [handleLinkCommand] whose role block has nothing to
    grant. *)
Lemma handleLinkCommand_skip_run bot env i w R rest :
  db bot = Some connection →
  no_faults w →
  (∀ p, p ∈ players w → discord_id p ≠ Some (user_id i)) →
  select_by_link_code (option_code i) (players w) = R :: rest →
  guild i = None ∨ truthy (DISCORD_ROLE_ID env) = None
    ∨ (∃ roleId, truthy (DISCORD_ROLE_ID env) = Some roleId ∧ (roleId ∉ roles w)
                 ∧ is_Some (members w !! user_id i)) →
  (run (handleLinkCommand bot env i) w).1 = Fulfilled (ReplyLinked (name R))
  ∧ grants (calls_since w (run (handleLinkCommand bot env i) w).2) = []
  ∧ players (run (handleLinkCommand bot env i) w).2
    = update_link (user_id i) (id R) (players w)
  ∧ members (run (handleLinkCommand bot env i) w).2 = members w.
Proof.
  intros Hdb Hf Hnone Hcode Hskip.
  rewrite (handleLinkCommand_commit bot env i w R rest)
    by auto using select_by_discord_id_nil.
  assert (Hcase : guild i = None ∨ truthy (DISCORD_ROLE_ID env) = None
    ∨ (∃ roleId rs, guild i = Some the_guild
         ∧ truthy (DISCORD_ROLE_ID env) = Some roleId ∧ (roleId ∉ roles w)
         ∧ members w !! user_id i = Some rs)).
  { destruct Hskip as [H|[H|(roleId & Hr & Hnot & [rs Hm])]]; auto.
    destruct (guild i) as [[]|]; eauto 10. }
  destruct Hcase as [H|[H|(roleId & rs & Hg & Hr & Hnot & Hm)]].
  - rewrite assign_role_skipped by auto. cbn [fst snd].
    rewrite (calls_since_app _ _ _ (committed_trace i R w)). done.
  - rewrite assign_role_skipped by auto. cbn [fst snd].
    rewrite (calls_since_app _ _ _ (committed_trace i R w)). done.
  - rewrite (assign_role_null_role env i _ _ roleId rs)
      by (try rewrite committed_fault_at; auto).
    cbn [fst snd].
    rewrite (calls_since_app w _
      [CallSelectByDiscordId (user_id i); CallSelectByLinkCode (option_code i);
       CallUpdateLink (user_id i) (id R); CallMembersFetch (user_id i);
       CallRolesFetch roleId]).
    + done.
    + cbn. by rewrite <- !app_assoc.
Qed.

(** C10. Let [handleLinkCommand] find no row of the requester and [R] as
    first row for the code, no call failing.  When the interaction has no
    guild, or [DISCORD_ROLE_ID] is unset or empty, or the configured id is
    no role of the guild (the requester being a member), no role is
    granted, and the reply is the reply of a complete link all the same,
    with the link written: the row [R], which had the submitted code and a
    null [discord_id], is at its place the row of the same [id] and [name]
    that holds the requester and has a null [link_code]. *)
Theorem handleLinkCommand_grant_skipped bot env i w R rest :
  db bot = Some connection →
  no_faults w →
  (∀ p, p ∈ players w → discord_id p ≠ Some (user_id i)) →
  select_by_link_code (option_code i) (players w) = R :: rest →
  guild i = None ∨ truthy (DISCORD_ROLE_ID env) = None
    ∨ (∃ roleId, truthy (DISCORD_ROLE_ID env) = Some roleId ∧ (roleId ∉ roles w)
                 ∧ is_Some (members w !! user_id i)) →
  (run (handleLinkCommand bot env i) w).1 = Fulfilled (ReplyLinked (name R))
  ∧ grants (calls_since w (run (handleLinkCommand bot env i) w).2) = []
  ∧ players (run (handleLinkCommand bot env i) w).2
    = update_link (user_id i) (id R) (players w)
  ∧ members (run (handleLinkCommand bot env i) w).2 = members w
  ∧ link_code R = Some (option_code i) ∧ discord_id R = None
  ∧ ∃ n, players w !! n = Some R
         ∧ players (run (handleLinkCommand bot env i) w).2 !! n
           = Some (mkPlayer (id R) (name R) (Some (user_id i)) None).
Proof.
  intros Hdb Hf Hnone Hcode Hskip.
  destruct (handleLinkCommand_skip_run bot env i w R rest Hdb Hf Hnone Hcode Hskip)
    as (Hreply & Hgrants & Hrows & Hmembers).
  destruct (select_by_link_code_cons _ _ _ _ Hcode) as (Hin & Hc & Hd).
  repeat split; try done.
  apply list_elem_of_lookup_1 in Hin as [n Hn]. exists n. split; [done|].
  rewrite Hrows. by apply update_link_at.
Qed.

Lemma handleLinkCommand_first_query_fails bot env i w :
  db bot = Some connection →
  fault_at 0 w = true →
  run (handleLinkCommand bot env i) w
  = (Fulfilled ReplyLinkError, tick (CallSelectByDiscordId (user_id i)) w).
Proof.
  intros Hdb Hf. unfold handleLinkCommand. rewrite Hdb.
  by rewrite run_try_catch, run_bind, run_await, perform_fault.
Qed.

(** C4, as the handler has it. When the three database calls of
    [handleLinkCommand] succeed, so that the link is written, and the role
    block then throws, the reply is the one of the [catch]: it is not the
    reply of a complete link, it is the reply also given when the first
    query fails and nothing is written, and the rows of [players] keep the
    link. *)
Theorem handleLinkCommand_grant_failed bot env i w R rest :
  db bot = Some connection →
  fault_at 0 w = false → fault_at 1 w = false → fault_at 2 w = false →
  (∀ p, p ∈ players w → discord_id p ≠ Some (user_id i)) →
  select_by_link_code (option_code i) (players w) = R :: rest →
  (run (assign_role env i (user_id i)) (committed i R w)).1 = Rejected →
  (run (handleLinkCommand bot env i) w).1 = Fulfilled ReplyLinkError
  ∧ ReplyLinkError ≠ ReplyLinked (name R)
  ∧ players (run (handleLinkCommand bot env i) w).2
    = update_link (user_id i) (id R) (players w)
  ∧ ∀ w0, fault_at 0 w0 = true →
      (run (handleLinkCommand bot env i) w0).1 = Fulfilled ReplyLinkError
      ∧ players (run (handleLinkCommand bot env i) w0).2 = players w0.
Proof.
  intros Hdb Hf0 Hf1 Hf2 Hnone Hcode Hthrow.
  destruct (handleLinkCommand_commit_frame env i R w) as [Hpl _].
  rewrite (handleLinkCommand_commit bot env i w R rest)
    by auto using select_by_discord_id_nil.
  destruct (run (assign_role env i (user_id i)) (committed i R w)) as [[[]|] w'];
    [done|].
  cbn [fst snd] in *. repeat split; try done.
  all: by rewrite handleLinkCommand_first_query_fails.
Qed.

(** ** The role reconciler on a linked member *)

Lemma no_faults_set_members ms w : no_faults w → no_faults (set_members ms w).
Proof. intros H n. apply H. Qed.

(** The member holds the role: three calls, no grant. *)
Lemma handleResyncCommand_holds bot env i w p rest roleId rs :
  db bot = Some connection →
  no_faults w →
  select_by_discord_id (user_id i) (players w) = p :: rest →
  guild i = Some the_guild →
  truthy (DISCORD_ROLE_ID env) = Some roleId →
  roleId ∈ roles w →
  members w !! user_id i = Some rs →
  roleId ∈ rs →
  run (handleResyncCommand bot env i) w
  = (Fulfilled ReplyAlreadyHasRole,
     tick (CallRolesFetch roleId)
       (tick (CallMembersFetch (user_id i))
          (tick (CallSelectByDiscordId (user_id i)) w))).
Proof.
  intros Hdb Hf Hsel Hg Hr Hrole Hm Hheld.
  unfold handleResyncCommand. rewrite Hdb.
  rewrite run_try_catch, run_bind, run_await, perform_ok by done.
  cbn [effect call_of players tick]. rewrite Hsel, Hg, Hr.
  rewrite run_bind, run_await, perform_ok by by rewrite fault_at_tick.
  cbn [effect call_of members tick]. rewrite Hm.
  rewrite run_bind, run_await, perform_ok by by rewrite !fault_at_tick.
  cbn [effect call_of roles tick].
  rewrite bool_decide_eq_true_2 by done.
  cbn [role_id member_roles].
  by rewrite bool_decide_eq_true_2.
Qed.

(** The member lacks the role: it is granted. *)
Lemma handleResyncCommand_grants bot env i w p rest roleId rs :
  db bot = Some connection →
  no_faults w →
  select_by_discord_id (user_id i) (players w) = p :: rest →
  guild i = Some the_guild →
  truthy (DISCORD_ROLE_ID env) = Some roleId →
  roleId ∈ roles w →
  members w !! user_id i = Some rs →
  roleId ∉ rs →
  run (handleResyncCommand bot env i) w
  = (Fulfilled (ReplyResynced (name p)),
     set_members (<[user_id i := {[roleId]} ∪ rs]> (members w))
       (tick (CallRolesAdd (user_id i) roleId)
          (tick (CallRolesFetch roleId)
             (tick (CallMembersFetch (user_id i))
                (tick (CallSelectByDiscordId (user_id i)) w))))).
Proof.
  intros Hdb Hf Hsel Hg Hr Hrole Hm Hlacks.
  unfold handleResyncCommand. rewrite Hdb.
  rewrite run_try_catch, run_bind, run_await, perform_ok by done.
  cbn [effect call_of players tick]. rewrite Hsel, Hg, Hr.
  rewrite run_bind, run_await, perform_ok by by rewrite fault_at_tick.
  cbn [effect call_of members tick]. rewrite Hm.
  rewrite run_bind, run_await, perform_ok by by rewrite !fault_at_tick.
  cbn [effect call_of roles tick].
  rewrite bool_decide_eq_true_2 by done.
  cbn [role_id member_roles].
  rewrite bool_decide_eq_false_2 by done.
  rewrite run_bind, run_await, perform_ok by by rewrite !fault_at_tick.
  cbn [effect call_of members tick member_id role_id]. by rewrite Hm.
Qed.

(** C7. Let the requester be linked in [players] and a member of the
    guild, the interaction carry the guild, [DISCORD_ROLE_ID] name a role
    of the guild, and no call fail.  If the member holds the role,
    [handleResyncCommand] replies that the role is already held, grants
    nothing and leaves the roles of the members as they were.  And in any
    case a second [handleResyncCommand], run on the world the first one
    left, replies that the role is already held. *)
Theorem handleResyncCommand_idempotent bot env i w p roleId rs :
  db bot = Some connection →
  no_faults w →
  p ∈ players w → discord_id p = Some (user_id i) →
  guild i = Some the_guild →
  truthy (DISCORD_ROLE_ID env) = Some roleId →
  roleId ∈ roles w →
  members w !! user_id i = Some rs →
  (roleId ∈ rs →
     (run (handleResyncCommand bot env i) w).1 = Fulfilled ReplyAlreadyHasRole
     ∧ grants (calls_since w (run (handleResyncCommand bot env i) w).2) = []
     ∧ members (run (handleResyncCommand bot env i) w).2 = members w)
  ∧ (run (handleResyncCommand bot env i)
         (run (handleResyncCommand bot env i) w).2).1
    = Fulfilled ReplyAlreadyHasRole.
Proof.
  intros Hdb Hf Hin Hp Hg Hr Hrole Hm.
  destruct (select_by_discord_id (user_id i) (players w)) as [|q rest] eqn:Hsel.
  { pose proof (select_by_discord_id_pos _ _ _ Hin Hp) as Hpos.
    rewrite Hsel in Hpos. cbn in Hpos. lia. }
  split.
  - intros Hheld.
    rewrite (handleResyncCommand_holds bot env i w q rest roleId rs) by done.
    cbn [fst snd]. split; [done|]. split; [|done].
    rewrite (calls_since_app w _
      [CallSelectByDiscordId (user_id i); CallMembersFetch (user_id i);
       CallRolesFetch roleId]); [done|].
    cbn. by rewrite <- !app_assoc.
  - destruct (decide (roleId ∈ rs)) as [Hheld|Hlacks].
    + rewrite (handleResyncCommand_holds bot env i w q rest roleId rs) by done.
      cbn [snd].
      by rewrite (handleResyncCommand_holds bot env i _ q rest roleId rs)
        by auto using no_faults_tick.
    + rewrite (handleResyncCommand_grants bot env i w q rest roleId rs) by done.
      cbn [snd].
      rewrite (handleResyncCommand_holds bot env i _ q rest roleId
                 ({[roleId]} ∪ rs)); [done|done| |done|done|done|done| |].
      * by apply no_faults_set_members; auto using no_faults_tick.
      * cbn. apply lookup_insert_eq.
      * set_solver.
Qed.

(** ** The uniqueness of links, handlers running one after another *)

(** The rows after a [handleLinkCommand] run without another handler in
    between: the rows before, or, no row holding the requester, the rows
    before with the [UPDATE] for one id applied. *)
Lemma handleLinkCommand_store_cases bot env i w :
  players (run (handleLinkCommand bot env i) w).2 = players w
  ∨ (select_by_discord_id (user_id i) (players w) = []
     ∧ ∃ R, players (run (handleLinkCommand bot env i) w).2
            = update_link (user_id i) (id R) (players w)).
Proof.
  destruct (db bot) as [[]|] eqn:Hdb;
    [|left; unfold handleLinkCommand; by rewrite Hdb].
  destruct (fault_at 0 w) eqn:Hf0.
  { left. by rewrite handleLinkCommand_first_query_fails. }
  destruct (select_by_discord_id (user_id i) (players w)) as [|p0 ps0] eqn:Hsel.
  2:{ left. unfold handleLinkCommand. rewrite Hdb.
      rewrite run_try_catch, run_bind, run_await, perform_ok by done.
      cbn [effect call_of players tick]. rewrite Hsel.
      by rewrite bool_decide_eq_true_2 by (cbn; lia). }
  destruct (fault_at 1 w) eqn:Hf1.
  { left. unfold handleLinkCommand. rewrite Hdb.
    rewrite run_try_catch, run_bind, run_await, perform_ok by done.
    cbn [effect call_of players tick]. rewrite Hsel.
    rewrite bool_decide_eq_false_2 by (cbn; lia).
    by rewrite run_bind, run_await, perform_fault by by rewrite fault_at_tick. }
  destruct (select_by_link_code (option_code i) (players w)) as [|R rest] eqn:Hcode.
  { left. unfold handleLinkCommand. rewrite Hdb.
    rewrite run_try_catch, run_bind, run_await, perform_ok by done.
    cbn [effect call_of players tick]. rewrite Hsel.
    rewrite bool_decide_eq_false_2 by (cbn; lia).
    rewrite run_bind, run_await, perform_ok by by rewrite fault_at_tick.
    cbn [effect call_of players tick]. by rewrite Hcode. }
  destruct (fault_at 2 w) eqn:Hf2.
  { left. unfold handleLinkCommand. rewrite Hdb.
    rewrite run_try_catch, run_bind, run_await, perform_ok by done.
    cbn [effect call_of players tick]. rewrite Hsel.
    rewrite bool_decide_eq_false_2 by (cbn; lia).
    rewrite run_bind, run_await, perform_ok by by rewrite fault_at_tick.
    cbn [effect call_of players tick]. rewrite Hcode.
    by rewrite run_bind, run_await, perform_fault by by rewrite !fault_at_tick. }
  right. split; [done|]. exists R.
  destruct (handleLinkCommand_commit_frame env i R w) as [Hpl _].
  rewrite (handleLinkCommand_commit bot env i w R rest) by done.
  by destruct (run (assign_role env i (user_id i)) (committed i R w)) as [[[]|] w'].
Qed.

Lemma handle_preserves bot env c w :
  primary_key (players w) → links_unique (players w) →
  primary_key (players (run (handle bot env c) w).2)
  ∧ links_unique (players (run (handle bot env c) w).2).
Proof.
  intros Hpk Hun. destruct c as [i|i]; cbn [handle].
  - destruct (handleLinkCommand_store_cases bot env i w) as [->|(Hnone & R & ->)].
    + done.
    + split; [by apply update_link_primary_key|by apply update_link_links_unique].
  - by rewrite makes_only_players by apply handleResyncCommand_no_update.
Qed.


(** ** Two [handleLinkCommand] in flight *)

Lemma step_try_catch_await {X A} (e : Event X) (f : X → Prog A) (h : Prog A) w :
  step (try_catch (await e ≫= f) h) w =
  ((match (perform e w).1 with
    | Fulfilled x => try_catch (f x) h
    | Rejected => h
    end), (perform e w).2).
Proof.
  cbn [step try_catch await mbind Prog_bind bind].
  by destruct (perform e w) as [[x|] w1].
Qed.

Lemma handleLinkCommand_step_lookup bot env i w :
  db bot = Some connection →
  fault_at 0 w = false →
  select_by_discord_id (user_id i) (players w) = [] →
  step (handleLinkCommand bot env i) w
  = (link_after_lookup env i, tick (CallSelectByDiscordId (user_id i)) w).
Proof.
  intros Hdb Hf Hnone. unfold handleLinkCommand. rewrite Hdb.
  rewrite step_try_catch_await, perform_ok by done.
  cbn [effect call_of players tick fst snd]. by rewrite Hnone.
Qed.

Lemma link_after_lookup_step env i w R rest :
  fault_at 0 w = false →
  select_by_link_code (option_code i) (players w) = R :: rest →
  step (link_after_lookup env i) w
  = (link_after_code_lookup env i R, tick (CallSelectByLinkCode (option_code i)) w).
Proof.
  intros Hf Hcode. unfold link_after_lookup.
  rewrite step_try_catch_await, perform_ok by done.
  cbn [effect call_of players tick fst snd]. by rewrite Hcode.
Qed.

(** The suspended handler makes its [UPDATE] for the id it holds, whatever
    the rows have become meanwhile. *)
Lemma link_after_code_lookup_run env i R w :
  fault_at 0 w = false →
  run (link_after_code_lookup env i R) w =
  match run (assign_role env i (user_id i))
          (set_players (update_link (user_id i) (id R) (players w))
             (tick (CallUpdateLink (user_id i) (id R)) w)) with
  | (Fulfilled _, w') => (Fulfilled (ReplyLinked (name R)), w')
  | (Rejected, w') => (Fulfilled ReplyLinkError, w')
  end.
Proof.
  intros Hf. unfold link_after_code_lookup.
  rewrite run_try_catch, run_bind, run_await, perform_ok by done.
  cbn [effect call_of players tick]. rewrite run_bind.
  by destruct (run (assign_role env i (user_id i)) _) as [[[]|] w'].
Qed.

Lemma no_faults_set_players ps w : no_faults w → no_faults (set_players ps w).
Proof. intros H n. apply H. Qed.

Lemma no_faults_run {A} (p : Prog A) w : no_faults w → no_faults (run p w).2.
Proof.
  revert w. induction p as [a| |X e k IH]; intros w Hf; try done.
  cbn [run]. destruct (perform e w) as [r w1] eqn:E. apply IH.
  replace w1 with (perform e w).2 by by rewrite E.
  by apply no_faults_perform.
Qed.

Lemma members_perform {X} (e : Event X) w v :
  is_Some (members w !! v) → is_Some (members (perform e w).2 !! v).
Proof.
  intros Hv. unfold perform. destruct (fault_at 0 w); [done|].
  destruct e; cbn; try done.
  - by destruct (members w !! userId).
  - destruct (members w !! member_id member) eqn:Hm; cbn; [|done].
    rewrite lookup_insert. by case_decide.
Qed.

Lemma members_run {A} (p : Prog A) w v :
  is_Some (members w !! v) → is_Some (members (run p w).2 !! v).
Proof.
  revert w. induction p as [a| |X e k IH]; intros w Hv; try done.
  cbn [run]. destruct (perform e w) as [r w1] eqn:E. apply IH.
  replace w1 with (perform e w).2 by by rewrite E.
  by apply members_perform.
Qed.

Lemma role_block_possible_run {A} env i (p : Prog A) w :
  guild i = None ∨ truthy (DISCORD_ROLE_ID env) = None
    ∨ is_Some (members w !! user_id i) →
  guild i = None ∨ truthy (DISCORD_ROLE_ID env) = None
    ∨ is_Some (members (run p w).2 !! user_id i).
Proof. intros [?|[?|?]]; auto using members_run. Qed.

Lemma update_link_twice u1 u2 pid ps :
  update_link u2 pid (update_link u1 pid ps) = update_link u2 pid ps.
Proof.
  unfold update_link. rewrite <- list_fmap_compose. apply list_fmap_ext.
  intros _ p _. cbn. by repeat (case_decide; cbn in * ).
Qed.

Lemma update_link_other_requester u1 u2 pid ps :
  u1 ≠ u2 →
  (∀ p, p ∈ ps → discord_id p ≠ Some u2) →
  ∀ p, p ∈ update_link u1 pid ps → discord_id p ≠ Some u2.
Proof.
  intros Hne Hnone p Hin. unfold update_link in Hin.
  apply list_elem_of_fmap in Hin as (q & -> & Hq).
  case_decide; cbn; [congruence|by apply Hnone].
Qed.

Lemma update_link_consumes c u R ps :
  select_by_link_code c ps = [R] →
  ∀ p, p ∈ update_link u (id R) ps →
       ¬ (link_code p = Some c ∧ discord_id p = None).
Proof.
  intros Hsel p Hin. unfold update_link in Hin.
  apply list_elem_of_fmap in Hin as (q & -> & Hq).
  case_decide as Hid; cbn; [by intros [? ?]|].
  intros Hmatch. apply Hid.
  assert (Hq' : q ∈ select_by_link_code c ps) by by apply list_elem_of_filter.
  rewrite Hsel in Hq'. by apply list_elem_of_singleton in Hq' as ->.
Qed.

(** Two /link with one code, one after the other and alternating call by
    call. *)
Lemma link_same_code_two_schedules bot env i1 i2 w R :
  db bot = Some connection →
  no_faults w →
  primary_key (players w) →
  option_code i2 = option_code i1 →
  user_id i1 ≠ user_id i2 →
  (∀ p, p ∈ players w → discord_id p ≠ Some (user_id i1)) →
  (∀ p, p ∈ players w → discord_id p ≠ Some (user_id i2)) →
  select_by_link_code (option_code i1) (players w) = [R] →
  guild i1 = None ∨ truthy (DISCORD_ROLE_ID env) = None
    ∨ is_Some (members w !! user_id i1) →
  guild i2 = None ∨ truthy (DISCORD_ROLE_ID env) = None
    ∨ is_Some (members w !! user_id i2) →
  ∃ n, players w !! n = Some R ∧
  (let '(r1, r2, w') :=
     interleave [] (handleLinkCommand bot env i1) (handleLinkCommand bot env i2) w in
   r1 = Fulfilled (ReplyLinked (name R))
   ∧ r2 = Fulfilled ReplyInvalidCode
   ∧ players w' = <[n := link_row (user_id i1) R]> (players w))
  ∧
  (let '(r1, r2, w') :=
     interleave [First; Second; First; Second]
       (handleLinkCommand bot env i1) (handleLinkCommand bot env i2) w in
   r1 = Fulfilled (ReplyLinked (name R))
   ∧ r2 = Fulfilled (ReplyLinked (name R))
   ∧ updates (calls_since w w')
     = [CallUpdateLink (user_id i1) (id R); CallUpdateLink (user_id i2) (id R)]
   ∧ players w' = <[n := link_row (user_id i2) R]> (players w)).
Proof.
  intros Hdb Hf Hpk Hc Hne Hnone1 Hnone2 Hsel Hm1 Hm2.
  destruct (select_by_link_code_cons _ _ _ _ Hsel) as (Hin & _ & _).
  apply list_elem_of_lookup_1 in Hin as [n Hn]. exists n. split; [done|].
  split.
  - (* one after the other *)
    cbn [interleave].
    rewrite (handleLinkCommand_commit bot env i1 w R [])
      by auto using select_by_discord_id_nil.
    pose proof (assign_role_fulfilled env i1 (user_id i1) (committed i1 R w)
                  (committed_no_faults _ _ _ Hf) Hm1) as Hok.
    destruct (handleLinkCommand_commit_frame env i1 R w) as [Hpl _].
    pose proof (no_faults_run (assign_role env i1 (user_id i1)) (committed i1 R w)
                  (committed_no_faults _ _ _ Hf)) as Hf'.
    destruct (run (assign_role env i1 (user_id i1)) (committed i1 R w)) as [[[]|] w1];
      [|done].
    cbn [fst snd] in *.
    rewrite (handleLinkCommand_run_invalid_code bot env i2 w1); try done.
    + split; [done|]. split; [done|]. cbn [players tick].
      rewrite Hpl. by apply update_link_insert.
    + rewrite Hpl. by apply update_link_other_requester.
    + rewrite Hpl, Hc. by apply update_link_consumes.
  - (* call by call *)
    cbn [interleave].
    rewrite (handleLinkCommand_step_lookup bot env i1 w)
      by auto using select_by_discord_id_nil.
    rewrite (handleLinkCommand_step_lookup bot env i2)
      by (try rewrite fault_at_tick; auto using select_by_discord_id_nil).
    rewrite (link_after_lookup_step env i1 _ R [])
      by (try rewrite !fault_at_tick; auto).
    rewrite (link_after_lookup_step env i2 _ R [])
      by (try rewrite !fault_at_tick; try rewrite Hc; auto).
    set (w4 := tick _ (tick _ (tick _ (tick _ w)))).
    assert (Hf4 : no_faults w4) by (subst w4; auto using no_faults_tick).
    rewrite (link_after_code_lookup_run env i1 R w4) by done.
    set (w5 := set_players _ (tick _ w4)).
    assert (Hf5 : no_faults w5)
      by (subst w5; auto using no_faults_tick, no_faults_set_players).
    pose proof (assign_role_fulfilled env i1 (user_id i1) w5 Hf5 Hm1) as Hok1.
    pose proof (no_faults_run (assign_role env i1 (user_id i1)) w5 Hf5) as Hf6.
    pose proof (role_block_possible_run env i2 (assign_role env i1 (user_id i1)) w5 Hm2)
      as Hm6.
    pose proof (makes_only_players _ w5 (assign_role_no_update env i1 (user_id i1)))
      as Hp6.
    destruct (makes_only_trace _ _ w5 (assign_role_no_update env i1 (user_id i1)))
      as (cs1 & Ht6 & Hno1).
    destruct (run (assign_role env i1 (user_id i1)) w5) as [[[]|] w6]; [|done].
    cbn [fst snd] in *.
    rewrite (link_after_code_lookup_run env i2 R w6) by done.
    set (w7 := set_players _ (tick _ w6)).
    assert (Hf7 : no_faults w7)
      by (subst w7; auto using no_faults_tick, no_faults_set_players).
    pose proof (assign_role_fulfilled env i2 (user_id i2) w7 Hf7 Hm6) as Hok2.
    pose proof (makes_only_players _ w7 (assign_role_no_update env i2 (user_id i2)))
      as Hp8.
    destruct (makes_only_trace _ _ w7 (assign_role_no_update env i2 (user_id i2)))
      as (cs2 & Ht8 & Hno2).
    destruct (run (assign_role env i2 (user_id i2)) w7) as [[[]|] w8]; [|done].
    cbn [fst snd] in *.
    split; [done|]. split; [done|]. split.
    + rewrite (calls_since_app w w8
        ([CallSelectByDiscordId (user_id i1); CallSelectByDiscordId (user_id i2);
          CallSelectByLinkCode (option_code i1); CallSelectByLinkCode (option_code i2);
          CallUpdateLink (user_id i1) (id R)] ++ cs1
         ++ [CallUpdateLink (user_id i2) (id R)] ++ cs2)).
      * unfold updates. rewrite !filter_app.
        fold (updates cs1). fold (updates cs2).
        rewrite (updates_none cs1), (updates_none cs2) by done. reflexivity.
      * rewrite Ht8. subst w7. cbn [trace tick set_players]. rewrite Ht6.
        subst w5 w4. cbn [trace tick set_players].
        rewrite <- !app_assoc. reflexivity.
    + rewrite Hp8. subst w7. cbn [players set_players tick]. rewrite Hp6.
      subst w5 w4. cbn [players set_players tick].
      rewrite update_link_twice. by apply update_link_insert.
Qed.

(** ** The scenarios *)

Lemma scenario_no_faults ps : no_faults (scenario ps []).
Proof. intros n. unfold fault_at. cbn. by destruct n. Qed.

Ltac small_store :=
  let m := fresh "m" in
  let n := fresh "n" in
  intros m n; intros;
  destruct m as [|[|[|m]]], n as [|[|[|n]]]; cbn in *; simplify_eq; done.

Lemma primary_key_steve : primary_key [steve].
Proof. unfold primary_key. small_store. Qed.

Lemma primary_key_steve_alex : primary_key [steve; alex].
Proof. unfold primary_key. small_store. Qed.

Lemma links_unique_steve_alex : links_unique [steve; alex].
Proof. unfold links_unique. small_store. Qed.

Lemma nobody_linked (u : string) ps :
  Forall (λ p, discord_id p = None) ps → ∀ p, p ∈ ps → discord_id p ≠ Some u.
Proof.
  intros Hall p Hin Hp. rewrite Forall_forall in Hall.
  specialize (Hall p Hin). congruence.
Qed.

(** Against C1 as stated.
    Two /link of one requester, with the codes of two accounts, alternating
    call by call: both accounts end linked to the requester. *)
Lemma links_not_unique_overlapping :
  let w := scenario [steve; alex] [] in
  let w' := (interleave [First; Second; First; Second]
               (handleLinkCommand bot_connected env_role (link_request "disc#1" "ABC123"))
               (handleLinkCommand bot_connected env_role (link_request "disc#1" "XYZ789"))
               w).2 in
  primary_key (players w) ∧ links_unique (players w)
  ∧ players w' = [mkPlayer "a1" "Steve" (Some "disc#1") None;
                  mkPlayer "a2" "Alex" (Some "disc#1") None]
  ∧ ¬ links_unique (players w').
Proof.
  cbv zeta.
  assert (E : players (interleave [First; Second; First; Second]
               (handleLinkCommand bot_connected env_role (link_request "disc#1" "ABC123"))
               (handleLinkCommand bot_connected env_role (link_request "disc#1" "XYZ789"))
               (scenario [steve; alex] [])).2
              = [mkPlayer "a1" "Steve" (Some "disc#1") None;
                 mkPlayer "a2" "Alex" (Some "disc#1") None])
    by (vm_compute; reflexivity).
  split; [apply primary_key_steve_alex|].
  split; [apply links_unique_steve_alex|].
  split; [exact E|].
  rewrite E. intros H.
  by specialize (H 0 1 _ _ "disc#1" eq_refl eq_refl eq_refl eq_refl).
Qed.

(** Against C3 as stated.
    Two /link of two requesters with the code of one account, alternating
    call by call: neither is told that the code is invalid, both [UPDATE]s
    are made, and the account ends linked to the second requester. *)
Lemma same_code_both_linked :
  let '(r1, r2, w') :=
    interleave [First; Second; First; Second]
      (handleLinkCommand bot_connected env_role (link_request "disc#1" "ABC123"))
      (handleLinkCommand bot_connected env_role (link_request "disc#2" "ABC123"))
      (scenario [steve] []) in
  r1 = Fulfilled (ReplyLinked "Steve")
  ∧ r2 = Fulfilled (ReplyLinked "Steve")
  ∧ r2 ≠ Fulfilled ReplyInvalidCode
  ∧ updates (trace w') = [CallUpdateLink "disc#1" "a1"; CallUpdateLink "disc#2" "a1"]
  ∧ players w' = [mkPlayer "a1" "Steve" (Some "disc#2") None].
Proof. vm_compute. by repeat split. Qed.

(** Against C4 as stated.
    A /link whose [member.roles.add] fails after the [UPDATE], and a /link
    whose first query fails: the reply is the same, the one of the [catch];
    the first has written the link, the second has written nothing. *)
Lemma grant_failure_replies_as_store_failure :
  let link := handleLinkCommand bot_connected env_role (link_request "disc#1" "ABC123") in
  let partial := run link (scenario [steve] [false; false; false; false; false; true]) in
  let failed := run link (scenario [steve] [true]) in
  partial.1 = Fulfilled ReplyLinkError
  ∧ players partial.2 = [linked_steve]
  ∧ last (trace partial.2) = Some (CallRolesAdd "disc#1" "role1")
  ∧ failed.1 = Fulfilled ReplyLinkError
  ∧ players failed.2 = [steve]
  ∧ partial.1 = failed.1.
Proof. vm_compute. by repeat split. Qed.

(** ** The theorems at the scenarios *)

(** "disc#1", linked to Steve, submits the valid code of Alex. *)
Lemma handleLinkCommand_already_linked_scenario :
  let i := link_request "disc#1" "XYZ789" in
  let w := scenario [linked_steve; alex] [] in
  (run (handleLinkCommand bot_connected env_role i) w).1 = Fulfilled ReplyAlreadyLinked
  ∧ calls_since w (run (handleLinkCommand bot_connected env_role i) w).2
      = [CallSelectByDiscordId "disc#1"]
  ∧ players (run (handleLinkCommand bot_connected env_role i) w).2
      = [linked_steve; alex].
Proof.
  apply (handleLinkCommand_already_linked bot_connected env_role
           (link_request "disc#1" "XYZ789") (scenario [linked_steve; alex] [])
           linked_steve);
    [reflexivity|reflexivity|constructor|reflexivity].
Defined.

(** "disc#2" submits the code of Steve after "disc#1" consumed it. *)
Lemma handleLinkCommand_invalid_code_scenario :
  let i := link_request "disc#2" "ABC123" in
  let w := scenario [linked_steve] [] in
  (run (handleLinkCommand bot_connected env_role i) w).1 = Fulfilled ReplyInvalidCode
  ∧ calls_since w (run (handleLinkCommand bot_connected env_role i) w).2
      = [CallSelectByDiscordId "disc#2"; CallSelectByLinkCode "ABC123"]
  ∧ players (run (handleLinkCommand bot_connected env_role i) w).2 = [linked_steve].
Proof.
  apply (handleLinkCommand_invalid_code bot_connected env_role
           (link_request "disc#2" "ABC123") (scenario [linked_steve] []));
    [reflexivity|reflexivity|reflexivity| |].
  - intros p Hp. apply list_elem_of_singleton in Hp as ->. discriminate.
  - intros p Hp. apply list_elem_of_singleton in Hp as ->. by intros [? ?].
Defined.

(** "disc#1" submits the code of Steve. *)
Lemma handleLinkCommand_linked_scenario :
  let i := link_request "disc#1" "ABC123" in
  let w := scenario [steve] [] in
  (run (handleLinkCommand bot_connected env_role i) w).1
    = Fulfilled (ReplyLinked "Steve")
  ∧ link_code steve = Some "ABC123" ∧ discord_id steve = None
  ∧ updates (calls_since w (run (handleLinkCommand bot_connected env_role i) w).2)
      = [CallUpdateLink "disc#1" "a1"]
  ∧ ∃ n, [steve] !! n = Some steve
         ∧ players (run (handleLinkCommand bot_connected env_role i) w).2
           = <[n := mkPlayer "a1" "Steve" (Some "disc#1") None]> [steve].
Proof.
  apply (handleLinkCommand_linked bot_connected env_role
           (link_request "disc#1" "ABC123") (scenario [steve] []) steve []);
    [reflexivity|apply scenario_no_faults|apply primary_key_steve| |reflexivity|].
  - apply nobody_linked. by repeat constructor.
  - right. right. by eexists.
Defined.

(** "disc#1" submits the code of Steve outside a guild. *)
Lemma handleLinkCommand_grant_skipped_scenario :
  let i := mkInteraction "ABC123" "disc#1" None in
  let w := scenario [steve] [] in
  (run (handleLinkCommand bot_connected env_role i) w).1
    = Fulfilled (ReplyLinked "Steve")
  ∧ grants (calls_since w (run (handleLinkCommand bot_connected env_role i) w).2) = []
  ∧ players (run (handleLinkCommand bot_connected env_role i) w).2
    = update_link "disc#1" "a1" [steve]
  ∧ members (run (handleLinkCommand bot_connected env_role i) w).2 = members w
  ∧ link_code steve = Some "ABC123" ∧ discord_id steve = None
  ∧ ∃ n, [steve] !! n = Some steve
         ∧ players (run (handleLinkCommand bot_connected env_role i) w).2 !! n
           = Some (mkPlayer "a1" "Steve" (Some "disc#1") None).
Proof.
  apply (handleLinkCommand_grant_skipped bot_connected env_role
           (mkInteraction "ABC123" "disc#1" None) (scenario [steve] []) steve []);
    [reflexivity|apply scenario_no_faults| |reflexivity|by left].
  apply nobody_linked. by repeat constructor.
Defined.

(** "disc#1" submits the code of Steve; [member.roles.add] fails. *)
Lemma handleLinkCommand_grant_failed_scenario :
  let i := link_request "disc#1" "ABC123" in
  let w := scenario [steve] [false; false; false; false; false; true] in
  (run (handleLinkCommand bot_connected env_role i) w).1 = Fulfilled ReplyLinkError
  ∧ ReplyLinkError ≠ ReplyLinked "Steve"
  ∧ players (run (handleLinkCommand bot_connected env_role i) w).2
    = update_link "disc#1" "a1" [steve]
  ∧ ∀ w0, fault_at 0 w0 = true →
      (run (handleLinkCommand bot_connected env_role i) w0).1 = Fulfilled ReplyLinkError
      ∧ players (run (handleLinkCommand bot_connected env_role i) w0).2 = players w0.
Proof.
  apply (handleLinkCommand_grant_failed bot_connected env_role
           (link_request "disc#1" "ABC123")
           (scenario [steve] [false; false; false; false; false; true]) steve []);
    [reflexivity|reflexivity|reflexivity|reflexivity| |reflexivity
    |vm_compute; reflexivity].
  apply nobody_linked. by repeat constructor.
Defined.

(** "disc#9", linked to no account, asks for a resync. *)
Lemma handleResyncCommand_not_linked_scenario :
  let i := resync_request "disc#9" in
  let w := scenario [linked_steve] [] in
  (run (handleResyncCommand bot_connected env_role i) w).1 = Fulfilled ReplyNotLinked
  ∧ calls_since w (run (handleResyncCommand bot_connected env_role i) w).2
      = [CallSelectByDiscordId "disc#9"]
  ∧ grants (calls_since w (run (handleResyncCommand bot_connected env_role i) w).2) = []
  ∧ players (run (handleResyncCommand bot_connected env_role i) w).2 = [linked_steve]
  ∧ members (run (handleResyncCommand bot_connected env_role i) w).2 = members w.
Proof.
  apply (handleResyncCommand_not_linked bot_connected env_role
           (resync_request "disc#9") (scenario [linked_steve] []));
    [reflexivity|reflexivity|].
  intros p Hp. apply list_elem_of_singleton in Hp as ->. discriminate.
Defined.

(** "disc#1", linked to Steve and without the role, asks for a resync
    twice. *)
Lemma handleResyncCommand_idempotent_scenario :
  let i := resync_request "disc#1" in
  let w := scenario [linked_steve] [] in
  ("role1" ∈ (∅ : gset string) →
     (run (handleResyncCommand bot_connected env_role i) w).1
       = Fulfilled ReplyAlreadyHasRole
     ∧ grants (calls_since w (run (handleResyncCommand bot_connected env_role i) w).2) = []
     ∧ members (run (handleResyncCommand bot_connected env_role i) w).2 = members w)
  ∧ (run (handleResyncCommand bot_connected env_role i)
         (run (handleResyncCommand bot_connected env_role i) w).2).1
    = Fulfilled ReplyAlreadyHasRole.
Proof.
  apply (handleResyncCommand_idempotent bot_connected env_role
           (resync_request "disc#1") (scenario [linked_steve] []) linked_steve
           "role1" ∅);
    [reflexivity|apply scenario_no_faults|constructor|reflexivity|reflexivity
    |reflexivity|vm_compute; reflexivity|reflexivity].
Defined.



(** * Further properties of the handlers *)

(** ** Handlers under their [try_catch]

    In this embedding, where replying is not a call that can fail, the
    [catch] of a handler ends it with a reply. *)


Lemma never_throws_bind {A B} (p : Prog A) (f : A → Prog B) :
  never_throws p → (∀ a, never_throws (f a)) → never_throws (p ≫= f).
Proof.
  intros Hp Hf. induction Hp as [a|X e k Hk IH]; [apply Hf|].
  change (never_throws (Await e (λ r, k r ≫= f))). constructor. apply IH.
Qed.





(** ** How many writes and grants a handler makes *)

Lemma calls_at_most_run {A} P n (p : Prog A) w :
  calls_at_most P n p →
  ∃ cs, trace (run p w).2 = trace w ++ cs
        ∧ (length (filter (λ c, P c = true) cs) ≤ n)%nat.
Proof.
  intros Hp. revert w.
  induction Hp as [n a|n|n X e k He Hk IH|n X e k He Hk IH]; intros w.
  - exists []. rewrite app_nil_r. split; [done|cbn; lia].
  - exists []. rewrite app_nil_r. split; [done|cbn; lia].
  - cbn [run]. destruct (perform e w) as [r w1] eqn:E.
    destruct (IH r w1) as (cs & Hcs & Hn).
    exists (call_of e :: cs). split.
    + rewrite Hcs. replace w1 with (perform e w).2 by by rewrite E.
      rewrite trace_perform. by rewrite <- app_assoc.
    + rewrite filter_cons, decide_True by done. cbn. lia.
  - cbn [run]. destruct (perform e w) as [r w1] eqn:E.
    destruct (IH r w1) as (cs & Hcs & Hn).
    exists (call_of e :: cs). split.
    + rewrite Hcs. replace w1 with (perform e w).2 by by rewrite E.
      rewrite trace_perform. by rewrite <- app_assoc.
    + rewrite filter_cons, decide_False by congruence. done.
Qed.

Ltac bound_calls :=
  repeat first
    [ apply calls_at_most_ret
    | apply calls_at_most_throw
    | apply calls_at_most_skip; [reflexivity|intros [?|]]
    | apply calls_at_most_count; [reflexivity|intros [?|]]
    | progress cbn [try_catch bind mbind mret Prog_bind Prog_ret await]
    | case_match ].

Lemma handleLinkCommand_one_update bot env i :
  calls_at_most is_update 1 (handleLinkCommand bot env i).
Proof. unfold handleLinkCommand, assign_role. bound_calls. Qed.

Lemma handleLinkCommand_one_grant bot env i :
  calls_at_most is_grant 1 (handleLinkCommand bot env i).
Proof. unfold handleLinkCommand, assign_role. bound_calls. Qed.

Lemma handleResyncCommand_one_grant bot env i :
  calls_at_most is_grant 1 (handleResyncCommand bot env i).
Proof. unfold handleResyncCommand. bound_calls. Qed.

(** X2. In any run, whichever calls fail, [handleLinkCommand] makes at most
    one [UPDATE] and at most one [member.roles.add], and
    [handleResyncCommand] makes no [UPDATE] and at most one
    [member.roles.add]. *)
Theorem handlers_write_at_most_once bot env i w :
  (length (updates (calls_since w (run (handleLinkCommand bot env i) w).2)) ≤ 1)%nat
  ∧ (length (grants (calls_since w (run (handleLinkCommand bot env i) w).2)) ≤ 1)%nat
  ∧ updates (calls_since w (run (handleResyncCommand bot env i) w).2) = []
  ∧ (length (grants (calls_since w (run (handleResyncCommand bot env i) w).2)) ≤ 1)%nat.
Proof.
  split; [|split; [|split]].
  - destruct (calls_at_most_run _ _ _ w (handleLinkCommand_one_update bot env i))
      as (cs & Hcs & Hn).
    by rewrite (calls_since_app _ _ _ Hcs).
  - destruct (calls_at_most_run _ _ _ w (handleLinkCommand_one_grant bot env i))
      as (cs & Hcs & Hn).
    by rewrite (calls_since_app _ _ _ Hcs).
  - destruct (makes_only_trace _ _ w (handleResyncCommand_no_update bot env i))
      as (cs & Hcs & Hno).
    rewrite (calls_since_app _ _ _ Hcs). by apply updates_none.
  - destruct (calls_at_most_run _ _ _ w (handleResyncCommand_one_grant bot env i))
      as (cs & Hcs & Hn).
    by rewrite (calls_since_app _ _ _ Hcs).
Qed.

(** ** All the runs of the handlers *)

Lemma calls_since_refl w : calls_since w w = [].
Proof. apply calls_since_app. by rewrite app_nil_r. Qed.

Lemma calls_since_tick1 w c1 : calls_since w (tick c1 w) = [c1].
Proof. by apply calls_since_app. Qed.

Lemma calls_since_tick2 w c1 c2 : calls_since w (tick c2 (tick c1 w)) = [c1; c2].
Proof. apply calls_since_app. cbn. by rewrite <- !app_assoc. Qed.

Lemma calls_since_tick3 w c1 c2 c3 :
  calls_since w (tick c3 (tick c2 (tick c1 w))) = [c1; c2; c3].
Proof. apply calls_since_app. cbn. by rewrite <- !app_assoc. Qed.

Lemma calls_since_tick4 w c1 c2 c3 c4 :
  calls_since w (tick c4 (tick c3 (tick c2 (tick c1 w)))) = [c1; c2; c3; c4].
Proof. apply calls_since_app. cbn. by rewrite <- !app_assoc. Qed.

Lemma calls_since_set_members w ms w' :
  calls_since w (set_members ms w') = calls_since w w'.
Proof. reflexivity. Qed.

Lemma calls_since_set_players w ps w' :
  calls_since w (set_players ps w') = calls_since w w'.
Proof. reflexivity. Qed.

(** The role block: it leaves the rows and the roles of the guild alone;
    either it grants nothing and leaves the members alone, or it asks once
    for the configured role for [u], a member, and the member holds it
    exactly when the block completes. *)
Lemma assign_role_effect env i u w :
  players (run (assign_role env i u) w).2 = players w
  ∧ roles (run (assign_role env i u) w).2 = roles w
  ∧ ((grants (calls_since w (run (assign_role env i u) w).2) = []
      ∧ members (run (assign_role env i u) w).2 = members w)
     ∨ ∃ roleId rs,
         guild i = Some the_guild
         ∧ truthy (DISCORD_ROLE_ID env) = Some roleId
         ∧ roleId ∈ roles w
         ∧ members w !! u = Some rs
         ∧ grants (calls_since w (run (assign_role env i u) w).2)
           = [CallRolesAdd u roleId]
         ∧ (((run (assign_role env i u) w).1 = Rejected
             ∧ members (run (assign_role env i u) w).2 = members w)
            ∨ ((run (assign_role env i u) w).1 = Fulfilled ()
               ∧ members (run (assign_role env i u) w).2
                 = <[u := {[roleId]} ∪ rs]> (members w)))).
Proof.
  destruct (guild i) as [[]|] eqn:Hg.
  2:{ rewrite assign_role_skipped by auto. cbn [fst snd].
      rewrite calls_since_refl. auto. }
  destruct (truthy (DISCORD_ROLE_ID env)) as [roleId|] eqn:Hr.
  2:{ rewrite assign_role_skipped by auto. cbn [fst snd].
      rewrite calls_since_refl. auto. }
  unfold assign_role. rewrite Hg, Hr.
  rewrite run_bind, run_await.
  destruct (fault_at 0 w) eqn:Hf0.
  { rewrite perform_fault by done. cbn [fst snd call_of].
    rewrite calls_since_tick1. auto. }
  rewrite perform_ok by done. cbn [effect call_of members tick].
  destruct (members w !! u) as [rs|] eqn:Hm.
  2:{ cbn [fst snd]. rewrite calls_since_tick1. auto. }
  rewrite run_bind, run_await.
  destruct (fault_at 1 w) eqn:Hf1.
  { rewrite perform_fault by by rewrite fault_at_tick. cbn [fst snd call_of].
    rewrite calls_since_tick2. auto. }
  rewrite perform_ok by by rewrite fault_at_tick.
  cbn [effect call_of roles tick].
  destruct (decide (roleId ∈ roles w)) as [Hin|Hnot].
  2:{ rewrite bool_decide_eq_false_2 by done. cbn [run fst snd mret Prog_ret].
      rewrite calls_since_tick2. auto. }
  rewrite bool_decide_eq_true_2 by done. rewrite run_await.
  destruct (fault_at 2 w) eqn:Hf2.
  { rewrite perform_fault by by rewrite !fault_at_tick.
    cbn [fst snd call_of member_id role_id].
    rewrite calls_since_tick3. split; [done|]. split; [done|].
    right. exists roleId, rs. auto 10. }
  rewrite perform_ok by by rewrite !fault_at_tick.
  cbn [effect call_of members tick member_id role_id]. rewrite Hm.
  cbn [fst snd]. split; [done|]. split; [done|].
  right. exists roleId, rs. repeat split; try done.
  - by rewrite calls_since_set_members, calls_since_tick3.
  - by right.
Qed.

Lemma trace_run {A} (p : Prog A) w :
  trace (run p w).2 = trace w ++ calls_since w (run p w).2.
Proof.
  destruct (makes_only_trace (λ _, True) p w) as (cs & Hcs & _).
  { clear w. induction p as [a| |X e k IH]; by constructor. }
  by rewrite (calls_since_app _ _ _ Hcs).
Qed.

Lemma calls_since_trans w w1 w2 cs :
  trace w1 = trace w ++ cs →
  trace w2 = trace w1 ++ calls_since w1 w2 →
  calls_since w w2 = cs ++ calls_since w1 w2.
Proof.
  intros H1 H2. apply calls_since_app. by rewrite H2, H1, <- app_assoc.
Qed.

Lemma not_elem_of_select_by_discord_id u ps :
  select_by_discord_id u ps = [] → ∀ p, p ∈ ps → discord_id p ≠ Some u.
Proof. intros Hnone p Hin Hp. by eapply (filter_nil_not_elem_of _ _ p Hnone). Qed.

Lemma not_elem_of_select_by_link_code c ps :
  select_by_link_code c ps = [] →
  ∀ p, p ∈ ps → ¬ (link_code p = Some c ∧ discord_id p = None).
Proof. intros Hnone p Hin Hp. by eapply (filter_nil_not_elem_of _ _ p Hnone). Qed.

Lemma handleLinkCommand_run_already_linked bot env i w p rest :
  db bot = Some connection →
  fault_at 0 w = false →
  select_by_discord_id (user_id i) (players w) = p :: rest →
  run (handleLinkCommand bot env i) w
  = (Fulfilled ReplyAlreadyLinked, tick (CallSelectByDiscordId (user_id i)) w).
Proof.
  intros Hdb Hf Hsel. unfold handleLinkCommand. rewrite Hdb.
  rewrite run_try_catch, run_bind, run_await, perform_ok by done.
  cbn [effect call_of players tick]. rewrite Hsel.
  by rewrite bool_decide_eq_true_2 by (cbn; lia).
Qed.

Lemma handleLinkCommand_second_query_fails bot env i w :
  db bot = Some connection →
  fault_at 0 w = false →
  select_by_discord_id (user_id i) (players w) = [] →
  fault_at 1 w = true →
  run (handleLinkCommand bot env i) w
  = (Fulfilled ReplyLinkError,
     tick (CallSelectByLinkCode (option_code i))
       (tick (CallSelectByDiscordId (user_id i)) w)).
Proof.
  intros Hdb Hf0 Hsel Hf1. unfold handleLinkCommand. rewrite Hdb.
  rewrite run_try_catch, run_bind, run_await, perform_ok by done.
  cbn [effect call_of players tick]. rewrite Hsel.
  rewrite bool_decide_eq_false_2 by (cbn; lia).
  by rewrite run_bind, run_await, perform_fault by by rewrite fault_at_tick.
Qed.

Lemma handleLinkCommand_update_fails bot env i w R rest :
  db bot = Some connection →
  fault_at 0 w = false →
  select_by_discord_id (user_id i) (players w) = [] →
  fault_at 1 w = false →
  select_by_link_code (option_code i) (players w) = R :: rest →
  fault_at 2 w = true →
  run (handleLinkCommand bot env i) w
  = (Fulfilled ReplyLinkError,
     tick (CallUpdateLink (user_id i) (id R))
       (tick (CallSelectByLinkCode (option_code i))
          (tick (CallSelectByDiscordId (user_id i)) w))).
Proof.
  intros Hdb Hf0 Hsel Hf1 Hcode Hf2. unfold handleLinkCommand. rewrite Hdb.
  rewrite run_try_catch, run_bind, run_await, perform_ok by done.
  cbn [effect call_of players tick]. rewrite Hsel.
  rewrite bool_decide_eq_false_2 by (cbn; lia).
  rewrite run_bind, run_await, perform_ok by by rewrite fault_at_tick.
  cbn [effect call_of players tick]. rewrite Hcode.
  by rewrite run_bind, run_await, perform_fault by by rewrite !fault_at_tick.
Qed.

(** Every run of [handleLinkCommand]: either nothing is written, no role
    is granted and the reply is not that of a complete link; or the three
    database calls succeed and the role block decides the reply. *)
Lemma handleLinkCommand_effect bot env i w :
  (players (run (handleLinkCommand bot env i) w).2 = players w
   ∧ members (run (handleLinkCommand bot env i) w).2 = members w
   ∧ roles (run (handleLinkCommand bot env i) w).2 = roles w
   ∧ grants (calls_since w (run (handleLinkCommand bot env i) w).2) = []
   ∧ ∀ n, (run (handleLinkCommand bot env i) w).1 ≠ Fulfilled (ReplyLinked n))
  ∨ ∃ R rest,
      db bot = Some connection
      ∧ fault_at 0 w = false ∧ fault_at 1 w = false ∧ fault_at 2 w = false
      ∧ select_by_discord_id (user_id i) (players w) = []
      ∧ select_by_link_code (option_code i) (players w) = R :: rest
      ∧ run (handleLinkCommand bot env i) w
        = match run (assign_role env i (user_id i)) (committed i R w) with
          | (Fulfilled _, w') => (Fulfilled (ReplyLinked (name R)), w')
          | (Rejected, w') => (Fulfilled ReplyLinkError, w')
          end.
Proof.
  destruct (db bot) as [[]|] eqn:Hdb.
  2:{ left. unfold handleLinkCommand. rewrite Hdb. cbn [run fst snd mret Prog_ret].
      by rewrite calls_since_refl. }
  destruct (fault_at 0 w) eqn:Hf0.
  { left. rewrite handleLinkCommand_first_query_fails by done. cbn [fst snd].
    by rewrite calls_since_tick1. }
  destruct (select_by_discord_id (user_id i) (players w)) as [|p0 ps0] eqn:Hsel.
  2:{ left. rewrite (handleLinkCommand_run_already_linked _ _ _ _ p0 ps0) by done.
      cbn [fst snd]. by rewrite calls_since_tick1. }
  destruct (fault_at 1 w) eqn:Hf1.
  { left. rewrite handleLinkCommand_second_query_fails by done. cbn [fst snd].
    by rewrite calls_since_tick2. }
  destruct (select_by_link_code (option_code i) (players w)) as [|R rest] eqn:Hcode.
  { left. rewrite handleLinkCommand_run_invalid_code;
      [|done|done|done|by apply not_elem_of_select_by_discord_id
       |by apply not_elem_of_select_by_link_code].
    cbn [fst snd]. by rewrite calls_since_tick2. }
  destruct (fault_at 2 w) eqn:Hf2.
  { left. rewrite (handleLinkCommand_update_fails _ _ _ _ R rest) by done.
    cbn [fst snd]. by rewrite calls_since_tick3. }
  right. exists R, rest. repeat split; try done.
  by apply (handleLinkCommand_commit bot env i w R rest).
Qed.

Lemma update_link_holds u R ps :
  R ∈ ps → link_row u R ∈ update_link u (id R) ps.
Proof.
  intros Hin. unfold update_link. apply list_elem_of_fmap.
  exists R. by rewrite decide_True.
Qed.

Lemma commit_world {A} (r : result A * World) (a b : Reply) :
  (match r with
   | (Fulfilled _, w') => (Fulfilled a, w')
   | (Rejected, w') => (Fulfilled b, w')
   end).2 = r.2.
Proof. by destruct r as [[x|] w']. Qed.

Lemma commit_grants env i R w :
  grants (calls_since w (run (assign_role env i (user_id i)) (committed i R w)).2)
  = grants (calls_since (committed i R w)
              (run (assign_role env i (user_id i)) (committed i R w)).2).
Proof.
  rewrite (calls_since_trans w (committed i R w) _ _ (committed_trace i R w)
             (trace_run (assign_role env i (user_id i)) (committed i R w))).
  unfold grants. by rewrite filter_app.
Qed.

(** ** [handleLinkCommand]: failures, frames, and what follows a link *)

(** X3. When a query of [handleLinkCommand] fails before the link is
    written (the lookup by [discord_id], or the lookup by code, or the
    [UPDATE] itself), the reply is the one of the [catch], the rows and the
    roles of the members are as they were, and no role was asked for. *)
Theorem handleLinkCommand_query_failure bot env i w :
  db bot = Some connection →
  fault_at 0 w = true
  ∨ (fault_at 0 w = false
     ∧ select_by_discord_id (user_id i) (players w) = []
     ∧ (fault_at 1 w = true
        ∨ (fault_at 1 w = false
           ∧ select_by_link_code (option_code i) (players w) ≠ []
           ∧ fault_at 2 w = true))) →
  (run (handleLinkCommand bot env i) w).1 = Fulfilled ReplyLinkError
  ∧ players (run (handleLinkCommand bot env i) w).2 = players w
  ∧ members (run (handleLinkCommand bot env i) w).2 = members w
  ∧ grants (calls_since w (run (handleLinkCommand bot env i) w).2) = [].
Proof.
  intros Hdb [Hf0|(Hf0 & Hsel & [Hf1|(Hf1 & Hcode & Hf2)])].
  - rewrite handleLinkCommand_first_query_fails by done. cbn [fst snd].
    by rewrite calls_since_tick1.
  - rewrite handleLinkCommand_second_query_fails by done. cbn [fst snd].
    by rewrite calls_since_tick2.
  - destruct (select_by_link_code (option_code i) (players w)) as [|R rest] eqn:E;
      [done|].
    rewrite (handleLinkCommand_update_fails _ _ _ _ R rest) by done. cbn [fst snd].
    by rewrite calls_since_tick3.
Qed.

(** X4. In any run of [handleLinkCommand], whichever calls fail: if a role
    was asked for, then the requester was held by no row before, the link
    was written for the first row [R] the lookup by code returned, a row
    holds the requester afterwards, and what was asked for is the
    configured role, once, for the requester. *)
Theorem handleLinkCommand_grant_after_commit bot env i w :
  grants (calls_since w (run (handleLinkCommand bot env i) w).2) ≠ [] →
  ∃ R rest roleId,
    select_by_discord_id (user_id i) (players w) = []
    ∧ select_by_link_code (option_code i) (players w) = R :: rest
    ∧ players (run (handleLinkCommand bot env i) w).2
      = update_link (user_id i) (id R) (players w)
    ∧ link_row (user_id i) R ∈ players (run (handleLinkCommand bot env i) w).2
    ∧ truthy (DISCORD_ROLE_ID env) = Some roleId
    ∧ grants (calls_since w (run (handleLinkCommand bot env i) w).2)
      = [CallRolesAdd (user_id i) roleId].
Proof.
  intros Hgrant.
  destruct (handleLinkCommand_effect bot env i w)
    as [(_ & _ & _ & Hno & _)|(R & rest & Hdb & Hf0 & Hf1 & Hf2 & Hsel & Hcode & E)];
    [done|].
  destruct (assign_role_effect env i (user_id i) (committed i R w))
    as (Hpl & _ & Hcases).
  assert (Hsnd : (run (handleLinkCommand bot env i) w).2
                 = (run (assign_role env i (user_id i)) (committed i R w)).2)
    by (rewrite E; apply commit_world).
  rewrite Hsnd in Hgrant |- *. rewrite commit_grants in Hgrant |- *.
  destruct Hcases as [[Hnone _]|(roleId & rs & _ & Hr & _ & _ & Hg & _)]; [done|].
  exists R, rest, roleId. repeat split; try done.
  rewrite Hpl. apply update_link_holds.
  by destruct (select_by_link_code_cons _ _ _ _ Hcode).
Qed.

(** X5. In any run of [handleLinkCommand], whichever calls fail, no row is
    added or removed, and the row at each place keeps its [id] and its
    [name]; it is the row it was, or it now holds the requester and has a
    null [link_code]. *)
Theorem handleLinkCommand_rows_frame bot env i w :
  length (players (run (handleLinkCommand bot env i) w).2) = length (players w)
  ∧ ∀ n p', players (run (handleLinkCommand bot env i) w).2 !! n = Some p' →
      ∃ p, players w !! n = Some p ∧ id p' = id p ∧ name p' = name p
           ∧ (p' = p ∨ (discord_id p' = Some (user_id i) ∧ link_code p' = None)).
Proof.
  destruct (handleLinkCommand_store_cases bot env i w) as [->|(_ & R & ->)].
  - split; [done|]. intros n p' Hn. exists p'. auto.
  - split; [unfold update_link; apply length_fmap|].
    intros n p' Hn. rewrite update_link_lookup in Hn.
    destruct (players w !! n) as [p|]; [|done]. cbn in Hn. exists p.
    case_decide; simplify_eq; cbn; naive_solver.
Qed.

(** X6. Under the primary key, a row that holds a [discord_id] is left as
    it is by any run of [handleLinkCommand], whichever calls fail: the
    handler neither unlinks nor relinks a row. *)
Theorem handleLinkCommand_keeps_links bot env i w n p :
  primary_key (players w) →
  players w !! n = Some p →
  discord_id p ≠ None →
  players (run (handleLinkCommand bot env i) w).2 !! n = Some p.
Proof.
  intros Hpk Hn Hlinked.
  destruct (handleLinkCommand_effect bot env i w)
    as [(-> & _)|(R & rest & Hdb & Hf0 & Hf1 & Hf2 & Hsel & Hcode & E)]; [done|].
  destruct (assign_role_effect env i (user_id i) (committed i R w)) as (Hpl & _).
  assert (Hsnd : (run (handleLinkCommand bot env i) w).2
                 = (run (assign_role env i (user_id i)) (committed i R w)).2)
    by (rewrite E; apply commit_world).
  rewrite Hsnd, Hpl. clear E Hsnd Hpl.
  change (players (committed i R w))
    with (update_link (user_id i) (id R) (players w)).
  destruct (select_by_link_code_cons _ _ _ _ Hcode) as (Hin & _ & Hnull).
  apply list_elem_of_lookup_1 in Hin as [m Hm].
  rewrite (update_link_insert _ _ m R) by done.
  rewrite list_lookup_insert_ne; [done|].
  intros ->. congruence.
Qed.


(** ** [handleResyncCommand]: all its runs *)

Lemma handleResyncCommand_config_missing bot env i w p rest :
  db bot = Some connection →
  fault_at 0 w = false →
  select_by_discord_id (user_id i) (players w) = p :: rest →
  guild i = None ∨ truthy (DISCORD_ROLE_ID env) = None →
  run (handleResyncCommand bot env i) w
  = (Fulfilled ReplyRoleConfigMissing, tick (CallSelectByDiscordId (user_id i)) w).
Proof.
  intros Hdb Hf Hsel Hmissing. unfold handleResyncCommand. rewrite Hdb.
  rewrite run_try_catch, run_bind, run_await, perform_ok by done.
  cbn [effect call_of players tick]. rewrite Hsel.
  destruct Hmissing as [->| ->]; [done|]. by destruct (guild i).
Qed.

(** The run of a [handleResyncCommand] that reaches the role: the lookup
    found a row, the member and the role were fetched. *)
Lemma handleResyncCommand_role_fetched bot env i w p rest roleId rs :
  db bot = Some connection →
  fault_at 0 w = false → fault_at 1 w = false → fault_at 2 w = false →
  select_by_discord_id (user_id i) (players w) = p :: rest →
  guild i = Some the_guild →
  truthy (DISCORD_ROLE_ID env) = Some roleId →
  members w !! user_id i = Some rs →
  roleId ∈ roles w →
  roleId ∉ rs →
  run (handleResyncCommand bot env i) w
  = let w3 := tick (CallRolesFetch roleId)
                (tick (CallMembersFetch (user_id i))
                   (tick (CallSelectByDiscordId (user_id i)) w)) in
    if fault_at 3 w
    then (Fulfilled ReplyResyncError, tick (CallRolesAdd (user_id i) roleId) w3)
    else (Fulfilled (ReplyResynced (name p)),
          set_members (<[user_id i := {[roleId]} ∪ rs]> (members w))
            (tick (CallRolesAdd (user_id i) roleId) w3)).
Proof.
  intros Hdb Hf0 Hf1 Hf2 Hsel Hg Hr Hm Hrole Hlacks.
  unfold handleResyncCommand. rewrite Hdb.
  rewrite run_try_catch, run_bind, run_await, perform_ok by done.
  cbn [effect call_of players tick]. rewrite Hsel, Hg, Hr.
  rewrite run_bind, run_await, perform_ok by by rewrite fault_at_tick.
  cbn [effect call_of members tick]. rewrite Hm.
  rewrite run_bind, run_await, perform_ok by by rewrite !fault_at_tick.
  cbn [effect call_of roles tick].
  rewrite bool_decide_eq_true_2 by done.
  cbn [role_id member_roles].
  rewrite bool_decide_eq_false_2 by done.
  rewrite run_bind, run_await. cbv zeta.
  destruct (fault_at 3 w) eqn:Hf3.
  - by rewrite perform_fault by by rewrite !fault_at_tick.
  - rewrite perform_ok by by rewrite !fault_at_tick.
    cbn [effect call_of members tick member_id role_id]. by rewrite Hm.
Qed.

(** Every run of [handleResyncCommand]: the roles of the guild are left
    alone; either no role is asked for, the members are left alone and the
    reply is not that of a completed resync, or the requester is linked, a
    member, lacks the configured role, which is asked for once. *)
Lemma handleResyncCommand_effect bot env i w :
  roles (run (handleResyncCommand bot env i) w).2 = roles w
  ∧ ((grants (calls_since w (run (handleResyncCommand bot env i) w).2) = []
      ∧ members (run (handleResyncCommand bot env i) w).2 = members w
      ∧ ∀ n, (run (handleResyncCommand bot env i) w).1 ≠ Fulfilled (ReplyResynced n))
     ∨ ∃ p rest roleId rs,
         select_by_discord_id (user_id i) (players w) = p :: rest
         ∧ guild i = Some the_guild
         ∧ truthy (DISCORD_ROLE_ID env) = Some roleId
         ∧ roleId ∈ roles w
         ∧ members w !! user_id i = Some rs
         ∧ (roleId ∉ rs)
         ∧ grants (calls_since w (run (handleResyncCommand bot env i) w).2)
           = [CallRolesAdd (user_id i) roleId]
         ∧ ((fault_at 3 w = true
             ∧ (run (handleResyncCommand bot env i) w).1 = Fulfilled ReplyResyncError
             ∧ members (run (handleResyncCommand bot env i) w).2 = members w)
            ∨ (fault_at 3 w = false
               ∧ (run (handleResyncCommand bot env i) w).1
                 = Fulfilled (ReplyResynced (name p))
               ∧ members (run (handleResyncCommand bot env i) w).2
                 = <[user_id i := {[roleId]} ∪ rs]> (members w)))).
Proof.
  destruct (db bot) as [[]|] eqn:Hdb.
  2:{ unfold handleResyncCommand. rewrite Hdb. cbn [run fst snd mret Prog_ret].
      rewrite calls_since_refl. auto. }
  destruct (fault_at 0 w) eqn:Hf0.
  { unfold handleResyncCommand. rewrite Hdb.
    rewrite run_try_catch, run_bind, run_await, perform_fault by done.
    cbn [run fst snd mret Prog_ret call_of]. rewrite calls_since_tick1. auto. }
  destruct (select_by_discord_id (user_id i) (players w)) as [|p rest] eqn:Hsel.
  { unfold handleResyncCommand. rewrite Hdb.
    rewrite run_try_catch, run_bind, run_await, perform_ok by done.
    cbn [effect call_of players tick]. rewrite Hsel.
    cbn [run fst snd mret Prog_ret]. rewrite calls_since_tick1. auto. }
  destruct (guild i) as [[]|] eqn:Hg.
  2:{ rewrite (handleResyncCommand_config_missing _ _ _ _ p rest) by auto.
      cbn [fst snd]. rewrite calls_since_tick1. auto. }
  destruct (truthy (DISCORD_ROLE_ID env)) as [roleId|] eqn:Hr.
  2:{ rewrite (handleResyncCommand_config_missing _ _ _ _ p rest) by auto.
      cbn [fst snd]. rewrite calls_since_tick1. auto. }
  destruct (fault_at 1 w) eqn:Hf1.
  { unfold handleResyncCommand. rewrite Hdb.
    rewrite run_try_catch, run_bind, run_await, perform_ok by done.
    cbn [effect call_of players tick]. rewrite Hsel, Hg, Hr.
    rewrite run_bind, run_await, perform_fault by by rewrite fault_at_tick.
    cbn [run fst snd mret Prog_ret call_of]. rewrite calls_since_tick2. auto. }
  destruct (members w !! user_id i) as [rs|] eqn:Hm.
  2:{ unfold handleResyncCommand. rewrite Hdb.
      rewrite run_try_catch, run_bind, run_await, perform_ok by done.
      cbn [effect call_of players tick]. rewrite Hsel, Hg, Hr.
      rewrite run_bind, run_await, perform_ok by by rewrite fault_at_tick.
      cbn [effect call_of members tick]. rewrite Hm.
      cbn [run fst snd mret Prog_ret]. rewrite calls_since_tick2. auto. }
  destruct (fault_at 2 w) eqn:Hf2.
  { unfold handleResyncCommand. rewrite Hdb.
    rewrite run_try_catch, run_bind, run_await, perform_ok by done.
    cbn [effect call_of players tick]. rewrite Hsel, Hg, Hr.
    rewrite run_bind, run_await, perform_ok by by rewrite fault_at_tick.
    cbn [effect call_of members tick]. rewrite Hm.
    rewrite run_bind, run_await, perform_fault by by rewrite !fault_at_tick.
    cbn [run fst snd mret Prog_ret call_of]. rewrite calls_since_tick3. auto. }
  destruct (decide (roleId ∈ roles w)) as [Hrole|Hnorole].
  2:{ unfold handleResyncCommand. rewrite Hdb.
      rewrite run_try_catch, run_bind, run_await, perform_ok by done.
      cbn [effect call_of players tick]. rewrite Hsel, Hg, Hr.
      rewrite run_bind, run_await, perform_ok by by rewrite fault_at_tick.
      cbn [effect call_of members tick]. rewrite Hm.
      rewrite run_bind, run_await, perform_ok by by rewrite !fault_at_tick.
      cbn [effect call_of roles tick].
      rewrite bool_decide_eq_false_2 by done.
      cbn [run fst snd mret Prog_ret]. rewrite calls_since_tick3. auto. }
  destruct (decide (roleId ∈ rs)) as [Hheld|Hlacks].
  { unfold handleResyncCommand. rewrite Hdb.
    rewrite run_try_catch, run_bind, run_await, perform_ok by done.
    cbn [effect call_of players tick]. rewrite Hsel, Hg, Hr.
    rewrite run_bind, run_await, perform_ok by by rewrite fault_at_tick.
    cbn [effect call_of members tick]. rewrite Hm.
    rewrite run_bind, run_await, perform_ok by by rewrite !fault_at_tick.
    cbn [effect call_of roles tick].
    rewrite bool_decide_eq_true_2 by done. cbn [role_id member_roles].
    rewrite bool_decide_eq_true_2 by done.
    cbn [run fst snd mret Prog_ret]. rewrite calls_since_tick3. auto. }
  rewrite (handleResyncCommand_role_fetched bot env i w p rest roleId rs) by done.
  cbv zeta. split; [by destruct (fault_at 3 w)|].
  right. exists p, rest, roleId, rs.
  destruct (fault_at 3 w) eqn:Hf3; cbn [fst snd].
  - rewrite calls_since_tick4. repeat split; auto.
  - rewrite calls_since_set_members, calls_since_tick4. repeat split; auto.
Qed.

(** ** [handleResyncCommand]: when the role cannot be found, and when it is
    granted *)

(** X8. For a linked requester whose lookup does not fail: when the
    interaction has no guild, or [DISCORD_ROLE_ID] is unset or empty,
    [handleResyncCommand] replies that the role configuration is missing
    after the lookup alone, without a call to the guild; nothing changes. *)
Theorem handleResyncCommand_role_config_missing bot env i w p :
  db bot = Some connection →
  fault_at 0 w = false →
  p ∈ players w → discord_id p = Some (user_id i) →
  guild i = None ∨ truthy (DISCORD_ROLE_ID env) = None →
  (run (handleResyncCommand bot env i) w).1 = Fulfilled ReplyRoleConfigMissing
  ∧ calls_since w (run (handleResyncCommand bot env i) w).2
    = [CallSelectByDiscordId (user_id i)]
  ∧ members (run (handleResyncCommand bot env i) w).2 = members w.
Proof.
  intros Hdb Hf Hin Hp Hmissing.
  destruct (select_by_discord_id (user_id i) (players w)) as [|q rest] eqn:Hsel.
  { pose proof (select_by_discord_id_pos _ _ _ Hin Hp) as Hpos.
    rewrite Hsel in Hpos. cbn in Hpos. lia. }
  rewrite (handleResyncCommand_config_missing _ _ _ _ q rest) by done.
  cbn [fst snd]. by rewrite calls_since_tick1.
Qed.

(** X9. For a linked requester who is a member of the guild, no call
    failing: when [DISCORD_ROLE_ID] names no role of the guild,
    [handleResyncCommand] replies that the role was not found, asks for no
    role and leaves the roles of the members as they were. *)
Theorem handleResyncCommand_role_not_found bot env i w p roleId :
  db bot = Some connection →
  no_faults w →
  p ∈ players w → discord_id p = Some (user_id i) →
  guild i = Some the_guild →
  truthy (DISCORD_ROLE_ID env) = Some roleId →
  is_Some (members w !! user_id i) →
  roleId ∉ roles w →
  (run (handleResyncCommand bot env i) w).1 = Fulfilled ReplyRoleNotFound
  ∧ grants (calls_since w (run (handleResyncCommand bot env i) w).2) = []
  ∧ members (run (handleResyncCommand bot env i) w).2 = members w.
Proof.
  intros Hdb Hf Hin Hp Hg Hr [rs Hm] Hnorole.
  destruct (select_by_discord_id (user_id i) (players w)) as [|q rest] eqn:Hsel.
  { pose proof (select_by_discord_id_pos _ _ _ Hin Hp) as Hpos.
    rewrite Hsel in Hpos. cbn in Hpos. lia. }
  unfold handleResyncCommand. rewrite Hdb.
  rewrite run_try_catch, run_bind, run_await, perform_ok by done.
  cbn [effect call_of players tick]. rewrite Hsel, Hg, Hr.
  rewrite run_bind, run_await, perform_ok by by rewrite fault_at_tick.
  cbn [effect call_of members tick]. rewrite Hm.
  rewrite run_bind, run_await, perform_ok by by rewrite !fault_at_tick.
  cbn [effect call_of roles tick].
  rewrite bool_decide_eq_false_2 by done.
  cbn [run fst snd mret Prog_ret]. by rewrite calls_since_tick3.
Qed.

(** X10. For a requester linked in [players], a member of the guild who
    lacks the configured role, no call failing: [handleResyncCommand] asks
    for the role once and replies that the resync is complete, naming the
    first row the lookup returned; afterwards the requester holds the role
    besides the roles held before, and every other member is as before. *)
Theorem handleResyncCommand_resynced bot env i w p rest roleId rs :
  db bot = Some connection →
  no_faults w →
  select_by_discord_id (user_id i) (players w) = p :: rest →
  guild i = Some the_guild →
  truthy (DISCORD_ROLE_ID env) = Some roleId →
  roleId ∈ roles w →
  members w !! user_id i = Some rs →
  roleId ∉ rs →
  (run (handleResyncCommand bot env i) w).1 = Fulfilled (ReplyResynced (name p))
  ∧ grants (calls_since w (run (handleResyncCommand bot env i) w).2)
    = [CallRolesAdd (user_id i) roleId]
  ∧ members (run (handleResyncCommand bot env i) w).2 !! user_id i
    = Some ({[roleId]} ∪ rs)
  ∧ ∀ v, v ≠ user_id i →
      members (run (handleResyncCommand bot env i) w).2 !! v = members w !! v.
Proof.
  intros Hdb Hf Hsel Hg Hr Hrole Hm Hlacks.
  rewrite (handleResyncCommand_role_fetched bot env i w p rest roleId rs) by done.
  cbv zeta. rewrite (Hf 3). cbn [fst snd members set_members].
  rewrite calls_since_set_members, calls_since_tick4.
  split; [done|]. split; [done|]. split.
  - apply lookup_insert_eq.
  - intros v Hv. by apply lookup_insert_ne.
Qed.

(** X11. In any run of [handleResyncCommand], whichever calls fail: if a
    role was asked for, then a row of [players] holds the requester, the
    requester is a member of the guild, [DISCORD_ROLE_ID] names a role of
    the guild that the member lacked, and that role was asked for, once,
    for the requester. *)
Theorem handleResyncCommand_grant_only_linked bot env i w :
  grants (calls_since w (run (handleResyncCommand bot env i) w).2) ≠ [] →
  ∃ p roleId rs,
    p ∈ players w ∧ discord_id p = Some (user_id i)
    ∧ truthy (DISCORD_ROLE_ID env) = Some roleId
    ∧ roleId ∈ roles w
    ∧ members w !! user_id i = Some rs
    ∧ (roleId ∉ rs)
    ∧ grants (calls_since w (run (handleResyncCommand bot env i) w).2)
      = [CallRolesAdd (user_id i) roleId].
Proof.
  intros Hgrant.
  destruct (handleResyncCommand_effect bot env i w)
    as (_ & [(Hno & _)|(p & rest & roleId & rs & Hsel & Hg & Hr & Hrole & Hm & Hl & Hgr & _)]);
    [done|].
  exists p, roleId, rs.
  assert (Hin : p ∈ select_by_discord_id (user_id i) (players w))
    by (rewrite Hsel; left).
  apply list_elem_of_filter in Hin as [Hp Hin]. by repeat split.
Qed.

(** X12. In any run of either handler, whichever calls fail, the roles of
    the guild are as before, every member other than the requester holds
    the roles held before, and the requester holds the roles held before,
    or those and the configured role. *)
Theorem handlers_guild_frame bot env c w :
  let u := match c with Link i | Resync i => user_id i end in
  roles (run (handle bot env c) w).2 = roles w
  ∧ (∀ v, v ≠ u → members (run (handle bot env c) w).2 !! v = members w !! v)
  ∧ (members (run (handle bot env c) w).2 !! u = members w !! u
     ∨ ∃ roleId rs,
         truthy (DISCORD_ROLE_ID env) = Some roleId
         ∧ members w !! u = Some rs
         ∧ members (run (handle bot env c) w).2 !! u = Some ({[roleId]} ∪ rs)).
Proof.
  destruct c as [i|i]; cbn [handle]; cbv zeta.
  - destruct (handleLinkCommand_effect bot env i w)
      as [(_ & -> & -> & _)|(R & rest & Hdb & Hf0 & Hf1 & Hf2 & Hsel & Hcode & E)];
      [auto|].
    destruct (assign_role_effect env i (user_id i) (committed i R w))
      as (_ & Hroles & Hcases).
    assert (Hsnd : (run (handleLinkCommand bot env i) w).2
                   = (run (assign_role env i (user_id i)) (committed i R w)).2)
      by (rewrite E; apply commit_world).
    rewrite Hsnd. split; [exact Hroles|].
    destruct Hcases as [[_ ->]|(roleId & rs & _ & Hr & _ & Hm & _ & [[_ ->]|[_ ->]])];
      [auto|auto|].
    cbn [members committed set_players tick] in *. split.
    + intros v Hv. by apply lookup_insert_ne.
    + right. exists roleId, rs. split; [done|]. split; [done|].
      apply lookup_insert_eq.
  - destruct (handleResyncCommand_effect bot env i w)
      as (Hroles & [(_ & -> & _)
                   |(p & rest & roleId & rs & _ & _ & Hr & _ & Hm & _ & _
                     & [(_ & _ & ->)|(_ & _ & ->)])]);
      [auto|auto|].
    split; [done|]. split.
    + intros v Hv. by apply lookup_insert_ne.
    + right. exists roleId, rs. split; [done|]. split; [done|].
      apply lookup_insert_eq.
Qed.

(** ** Failure and repair *)

(** X13. A failed grant can be retried. For a linked requester, a member
    lacking the configured role: when [member.roles.add] fails and no other
    call does, [handleResyncCommand] replies with the error of its [catch]
    and the member holds what was held before; a second
    [handleResyncCommand] then replies that the resync is complete and the
    member holds the role. *)
Theorem handleResyncCommand_retry bot env i w p rest roleId rs :
  db bot = Some connection →
  (∀ n, fault_at n w = bool_decide (n = 3)) →
  select_by_discord_id (user_id i) (players w) = p :: rest →
  guild i = Some the_guild →
  truthy (DISCORD_ROLE_ID env) = Some roleId →
  roleId ∈ roles w →
  members w !! user_id i = Some rs →
  roleId ∉ rs →
  (run (handleResyncCommand bot env i) w).1 = Fulfilled ReplyResyncError
  ∧ members (run (handleResyncCommand bot env i) w).2 = members w
  ∧ (run (handleResyncCommand bot env i)
         (run (handleResyncCommand bot env i) w).2).1
    = Fulfilled (ReplyResynced (name p))
  ∧ members (run (handleResyncCommand bot env i)
               (run (handleResyncCommand bot env i) w).2).2 !! user_id i
    = Some ({[roleId]} ∪ rs).
Proof.
  intros Hdb Hf Hsel Hg Hr Hrole Hm Hlacks.
  rewrite (handleResyncCommand_role_fetched bot env i w p rest roleId rs)
    by (try rewrite Hf; done).
  cbv zeta. rewrite (Hf 3). cbn [fst snd bool_decide decide_rel].
  rewrite bool_decide_eq_true_2 by done. cbn [fst snd].
  split; [done|]. split; [done|].
  rewrite (handleResyncCommand_role_fetched bot env i _ p rest roleId rs);
    try done; try (rewrite !fault_at_tick, Hf; by apply bool_decide_eq_false_2).
  cbv zeta. rewrite !fault_at_tick, Hf, bool_decide_eq_false_2 by done.
  cbn [fst snd members set_members]. split; [done|]. apply lookup_insert_eq.
Qed.



(** ** The listener *)


Lemma interactionCreate_no_update bot env ev :
  isChatInputCommand ev = false ∨ commandName ev ≠ "link" →
  makes_only (λ c, is_update c = false) (interactionCreate bot env ev).
Proof.
  intros Hev. unfold interactionCreate.
  destruct (isChatInputCommand ev); cbn [negb]; [|constructor].
  destruct Hev as [?|Hne]; [done|].
  rewrite bool_decide_eq_false_2 by done.
  case_bool_decide; [|constructor].
  apply makes_only_bind; [apply handleResyncCommand_no_update|constructor].
Qed.

(** X16. Only 'link' writes: for an interaction that is not a chat input
    command, or names a command other than 'link', the listener makes no
    [UPDATE] and leaves the rows of [players] as they were, whichever calls
    fail. *)
Theorem interactionCreate_only_link_writes bot env ev w :
  isChatInputCommand ev = false ∨ commandName ev ≠ "link" →
  players (run (interactionCreate bot env ev) w).2 = players w
  ∧ updates (calls_since w (run (interactionCreate bot env ev) w).2) = [].
Proof.
  intros Hev. pose proof (interactionCreate_no_update bot env ev Hev) as Hno.
  split; [by apply makes_only_players|].
  destruct (makes_only_trace _ _ w Hno) as (cs & Hcs & Hall).
  rewrite (calls_since_app _ _ _ Hcs). by apply updates_none.
Qed.

(** ** Resyncs in flight *)

Lemma makes_only_step {A} P (p : Prog A) w :
  makes_only P p → makes_only P (step p w).1.
Proof.
  intros [a| |X e k He Hk]; cbn [step]; try constructor.
  destruct (perform e w) as [r w1]. apply Hk.
Qed.

Lemma players_step {A} (p : Prog A) w :
  makes_only (λ c, is_update c = false) p → players (step p w).2 = players w.
Proof.
  intros [a| |X e k He Hk]; cbn [step]; try done.
  destruct (perform e w) as [r w1] eqn:E.
  replace w1 with (perform e w).2 by by rewrite E.
  by apply players_perform.
Qed.

Lemma players_interleave {A B} sched (p1 : Prog A) (p2 : Prog B) w :
  makes_only (λ c, is_update c = false) p1 →
  makes_only (λ c, is_update c = false) p2 →
  players (interleave sched p1 p2 w).2 = players w.
Proof.
  revert p1 p2 w. induction sched as [|[] sched IH]; intros p1 p2 w H1 H2.
  - cbn [interleave].
    pose proof (makes_only_players p1 w H1) as E1.
    destruct (run p1 w) as [r1 w1].
    pose proof (makes_only_players p2 w1 H2) as E2.
    destruct (run p2 w1) as [r2 w2]. cbn in *. congruence.
  - cbn [interleave].
    pose proof (makes_only_step _ p1 w H1) as H1'.
    pose proof (players_step p1 w H1) as E.
    destruct (step p1 w) as [p1' w1]. cbn in *. rewrite IH by done. exact E.
  - cbn [interleave].
    pose proof (makes_only_step _ p2 w H2) as H2'.
    pose proof (players_step p2 w H2) as E.
    destruct (step p2 w) as [p2' w1]. cbn in *. rewrite IH by done. exact E.
Qed.

(** X17. Two [handleResyncCommand] in flight at once, their calls
    alternating in any order and whichever of them fail, leave the rows of
    [players] as they were. *)
Theorem handleResyncCommand_interleaved_frame bot env i1 i2 sched w :
  players (interleave sched (handleResyncCommand bot env i1)
             (handleResyncCommand bot env i2) w).2
  = players w.
Proof. apply players_interleave; apply handleResyncCommand_no_update. Qed.

(** ** The role after a complete link *)

(** X18. A complete link grants the role. Let [handleLinkCommand] find no
    row of the requester and [R] first for the code, in a guild where
    [DISCORD_ROLE_ID] names a role and the requester is a member, no call
    failing.  Then the reply is that the link is complete, the configured
    role is asked for once, for the requester, after which the requester
    holds it besides the roles held before; every other member is as
    before. *)
Theorem handleLinkCommand_grants_role bot env i w R rest roleId rs :
  db bot = Some connection →
  no_faults w →
  (∀ p, p ∈ players w → discord_id p ≠ Some (user_id i)) →
  select_by_link_code (option_code i) (players w) = R :: rest →
  guild i = Some the_guild →
  truthy (DISCORD_ROLE_ID env) = Some roleId →
  roleId ∈ roles w →
  members w !! user_id i = Some rs →
  (run (handleLinkCommand bot env i) w).1 = Fulfilled (ReplyLinked (name R))
  ∧ grants (calls_since w (run (handleLinkCommand bot env i) w).2)
    = [CallRolesAdd (user_id i) roleId]
  ∧ members (run (handleLinkCommand bot env i) w).2 !! user_id i
    = Some ({[roleId]} ∪ rs)
  ∧ ∀ v, v ≠ user_id i →
      members (run (handleLinkCommand bot env i) w).2 !! v = members w !! v.
Proof.
  intros Hdb Hf Hnone Hcode Hg Hr Hrole Hm.
  rewrite (handleLinkCommand_commit bot env i w R rest)
    by auto using select_by_discord_id_nil.
  rewrite (assign_role_granted env i (user_id i) (committed i R w) roleId rs)
    by (try rewrite committed_fault_at; auto).
  cbn [fst snd members set_members].
  split; [done|]. split; [|split].
  - rewrite calls_since_set_members.
    rewrite (calls_since_app w _
      [CallSelectByDiscordId (user_id i); CallSelectByLinkCode (option_code i);
       CallUpdateLink (user_id i) (id R); CallMembersFetch (user_id i);
       CallRolesFetch roleId; CallRolesAdd (user_id i) roleId]); [done|].
    cbn. by rewrite <- !app_assoc.
  - apply lookup_insert_eq.
  - intros v Hv. by apply lookup_insert_ne.
Qed.


(** ** The further properties at the scenarios *)


(** The lookup by code of "disc#1" fails. *)
Lemma handleLinkCommand_query_failure_scenario :
  let i := link_request "disc#1" "ABC123" in
  let w := scenario [steve] [false; true] in
  (run (handleLinkCommand bot_connected env_role i) w).1 = Fulfilled ReplyLinkError
  ∧ players (run (handleLinkCommand bot_connected env_role i) w).2 = [steve]
  ∧ members (run (handleLinkCommand bot_connected env_role i) w).2 = members w
  ∧ grants (calls_since w (run (handleLinkCommand bot_connected env_role i) w).2) = [].
Proof.
  apply (handleLinkCommand_query_failure bot_connected env_role
           (link_request "disc#1" "ABC123") (scenario [steve] [false; true]));
    [reflexivity|].
  right. split; [reflexivity|]. split; [reflexivity|]. left. reflexivity.
Defined.

(** "disc#1" links Steve and is granted the role. *)
Lemma handleLinkCommand_grant_after_commit_scenario :
  let i := link_request "disc#1" "ABC123" in
  let w := scenario [steve] [] in
  ∃ R rest roleId,
    select_by_discord_id "disc#1" [steve] = []
    ∧ select_by_link_code "ABC123" [steve] = R :: rest
    ∧ players (run (handleLinkCommand bot_connected env_role i) w).2
      = update_link "disc#1" (id R) [steve]
    ∧ link_row "disc#1" R ∈ players (run (handleLinkCommand bot_connected env_role i) w).2
    ∧ truthy (DISCORD_ROLE_ID env_role) = Some roleId
    ∧ grants (calls_since w (run (handleLinkCommand bot_connected env_role i) w).2)
      = [CallRolesAdd "disc#1" roleId].
Proof.
  apply (handleLinkCommand_grant_after_commit bot_connected env_role
           (link_request "disc#1" "ABC123") (scenario [steve] [])).
  vm_compute. discriminate.
Defined.

(** "disc#2" links Alex; the row of Steve, linked to "disc#1", stays. *)
Lemma handleLinkCommand_keeps_links_scenario :
  players (run (handleLinkCommand bot_connected env_role (link_request "disc#2" "XYZ789"))
             (scenario [linked_steve; alex] [])).2 !! 0
  = Some linked_steve.
Proof.
  apply (handleLinkCommand_keeps_links bot_connected env_role
           (link_request "disc#2" "XYZ789") (scenario [linked_steve; alex] [])
           0 linked_steve);
    [unfold primary_key; small_store|reflexivity|discriminate].
Defined.


(** "disc#1", linked, asks for a resync outside a guild. *)
Lemma handleResyncCommand_role_config_missing_scenario :
  let i := mkInteraction "" "disc#1" None in
  let w := scenario [linked_steve] [] in
  (run (handleResyncCommand bot_connected env_role i) w).1
    = Fulfilled ReplyRoleConfigMissing
  ∧ calls_since w (run (handleResyncCommand bot_connected env_role i) w).2
    = [CallSelectByDiscordId "disc#1"]
  ∧ members (run (handleResyncCommand bot_connected env_role i) w).2 = members w.
Proof.
  apply (handleResyncCommand_role_config_missing bot_connected env_role
           (mkInteraction "" "disc#1" None) (scenario [linked_steve] []) linked_steve);
    [reflexivity|reflexivity|constructor|reflexivity|by left].
Defined.

(** "disc#1", linked, asks for a resync; the configured id is no role. *)
Lemma handleResyncCommand_role_not_found_scenario :
  let env := mkEnv (Some "role9") in
  let i := resync_request "disc#1" in
  let w := scenario [linked_steve] [] in
  (run (handleResyncCommand bot_connected env i) w).1 = Fulfilled ReplyRoleNotFound
  ∧ grants (calls_since w (run (handleResyncCommand bot_connected env i) w).2) = []
  ∧ members (run (handleResyncCommand bot_connected env i) w).2 = members w.
Proof.
  apply (handleResyncCommand_role_not_found bot_connected (mkEnv (Some "role9"))
           (resync_request "disc#1") (scenario [linked_steve] []) linked_steve "role9");
    [reflexivity|apply scenario_no_faults|constructor|reflexivity|reflexivity
    |reflexivity|by eexists|].
  intros H. vm_compute in H. discriminate.
Defined.

(** "disc#1", linked and without the role, asks for a resync. *)
Lemma handleResyncCommand_resynced_scenario :
  let i := resync_request "disc#1" in
  let w := scenario [linked_steve] [] in
  (run (handleResyncCommand bot_connected env_role i) w).1
    = Fulfilled (ReplyResynced "Steve")
  ∧ grants (calls_since w (run (handleResyncCommand bot_connected env_role i) w).2)
    = [CallRolesAdd "disc#1" "role1"]
  ∧ members (run (handleResyncCommand bot_connected env_role i) w).2 !! "disc#1"
    = Some ({["role1"]} ∪ ∅)
  ∧ ∀ v, v ≠ "disc#1" →
      members (run (handleResyncCommand bot_connected env_role i) w).2 !! v
      = members w !! v.
Proof.
  apply (handleResyncCommand_resynced bot_connected env_role
           (resync_request "disc#1") (scenario [linked_steve] []) linked_steve []
           "role1" ∅);
    [reflexivity|apply scenario_no_faults|reflexivity|reflexivity|reflexivity
    |vm_compute; reflexivity|reflexivity|apply not_elem_of_empty].
Defined.

Lemma handleResyncCommand_grant_only_linked_scenario :
  let i := resync_request "disc#1" in
  let w := scenario [linked_steve] [] in
  ∃ p roleId rs,
    p ∈ players w ∧ discord_id p = Some "disc#1"
    ∧ truthy (DISCORD_ROLE_ID env_role) = Some roleId
    ∧ roleId ∈ roles w
    ∧ members w !! "disc#1" = Some rs
    ∧ (roleId ∉ rs)
    ∧ grants (calls_since w (run (handleResyncCommand bot_connected env_role i) w).2)
      = [CallRolesAdd "disc#1" roleId].
Proof.
  apply (handleResyncCommand_grant_only_linked bot_connected env_role
           (resync_request "disc#1") (scenario [linked_steve] [])).
  vm_compute. discriminate.
Defined.

(** The grant of the resync of "disc#1" fails; the resync is asked again. *)
Lemma handleResyncCommand_retry_scenario :
  let i := resync_request "disc#1" in
  let w := scenario [linked_steve] [false; false; false; true] in
  (run (handleResyncCommand bot_connected env_role i) w).1 = Fulfilled ReplyResyncError
  ∧ members (run (handleResyncCommand bot_connected env_role i) w).2 = members w
  ∧ (run (handleResyncCommand bot_connected env_role i)
         (run (handleResyncCommand bot_connected env_role i) w).2).1
    = Fulfilled (ReplyResynced "Steve")
  ∧ members (run (handleResyncCommand bot_connected env_role i)
               (run (handleResyncCommand bot_connected env_role i) w).2).2 !! "disc#1"
    = Some ({["role1"]} ∪ ∅).
Proof.
  apply (handleResyncCommand_retry bot_connected env_role
           (resync_request "disc#1")
           (scenario [linked_steve] [false; false; false; true]) linked_steve []
           "role1" ∅);
    [reflexivity| |reflexivity|reflexivity|reflexivity
    |vm_compute; reflexivity|reflexivity|apply not_elem_of_empty].
  intros [|[|[|[|[|n]]]]]; reflexivity.
Defined.


(** A /resync through the listener. *)
Lemma interactionCreate_only_link_writes_scenario :
  let ev := mkInteractionEvent true "resync" (resync_request "disc#1") in
  let w := scenario [linked_steve] [] in
  players (run (interactionCreate bot_connected env_role ev) w).2 = [linked_steve]
  ∧ updates (calls_since w (run (interactionCreate bot_connected env_role ev) w).2) = [].
Proof.
  apply (interactionCreate_only_link_writes bot_connected env_role
           (mkInteractionEvent true "resync" (resync_request "disc#1"))
           (scenario [linked_steve] [])).
  right. discriminate.
Defined.

(** "disc#1" links Steve in the guild. *)
Lemma handleLinkCommand_grants_role_scenario :
  let i := link_request "disc#1" "ABC123" in
  let w := scenario [steve] [] in
  (run (handleLinkCommand bot_connected env_role i) w).1 = Fulfilled (ReplyLinked "Steve")
  ∧ grants (calls_since w (run (handleLinkCommand bot_connected env_role i) w).2)
    = [CallRolesAdd "disc#1" "role1"]
  ∧ members (run (handleLinkCommand bot_connected env_role i) w).2 !! "disc#1"
    = Some ({["role1"]} ∪ ∅)
  ∧ ∀ v, v ≠ "disc#1" →
      members (run (handleLinkCommand bot_connected env_role i) w).2 !! v
      = members w !! v.
Proof.
  apply (handleLinkCommand_grants_role bot_connected env_role
           (link_request "disc#1" "ABC123") (scenario [steve] []) steve []
           "role1" ∅);
    [reflexivity|apply scenario_no_faults| |reflexivity|reflexivity|reflexivity
    |vm_compute; reflexivity|reflexivity].
  apply nobody_linked. by repeat constructor.
Defined.


(** ** Registered and handled commands *)



(** * Handlers in flight under every schedule *)

(** ** [interleave] as a sequence of calls *)

Lemma run_step {A} (p : Prog A) w : run p w = run (step p w).1 (step p w).2.
Proof. destruct p as [a| |X e k]; try done. cbn. by destruct (perform e w). Qed.

Lemma run_finished {A} (p : Prog A) w : finished p → run p w = (outcome p, w).
Proof. by destruct p. Qed.

Lemma interleave_advance {A B} sched (p1 : Prog A) (p2 : Prog B) w :
  interleave sched p1 p2 w
  = interleave [] (advance sched p1 p2 w).1.1 (advance sched p1 p2 w).1.2
      (advance sched p1 p2 w).2.
Proof.
  revert p1 p2 w. induction sched as [|[] sched IH]; intros p1 p2 w; [done| |].
  - cbn [interleave advance]. destruct (step p1 w) as [p1' w1]. apply IH.
  - cbn [interleave advance]. destruct (step p2 w) as [p2' w1]. apply IH.
Qed.

Lemma advance_app {A B} s1 s2 (p1 : Prog A) (p2 : Prog B) w :
  advance (s1 ++ s2) p1 p2 w
  = advance s2 (advance s1 p1 p2 w).1.1 (advance s1 p1 p2 w).1.2
      (advance s1 p1 p2 w).2.
Proof.
  revert p1 p2 w. induction s1 as [|[] s1 IH]; intros p1 p2 w; [done| |].
  - cbn [app advance]. destruct (step p1 w) as [p1' w1]. apply IH.
  - cbn [app advance]. destruct (step p2 w) as [p2' w1]. apply IH.
Qed.

Lemma calls_at_most_weaken {A} P n m (p : Prog A) :
  calls_at_most P n p → (n ≤ m)%nat → calls_at_most P m p.
Proof.
  intros Hp. revert m.
  induction Hp as [n a|n|n X e k He Hk IH|n X e k He Hk IH]; intros m Hnm.
  - constructor.
  - constructor.
  - destruct m as [|m]; [lia|]. apply calls_at_most_count; [done|].
    intros r. apply IH. lia.
  - apply calls_at_most_skip; [done|]. intros r. by apply IH.
Qed.

Lemma calls_at_most_step {A} n (p : Prog A) w :
  calls_at_most any_call (S n) p → calls_at_most any_call n (step p w).1.
Proof.
  intros Hp. inversion Hp as [m a|m|m X e k He Hk|m X e k He Hk]; simplify_eq;
    cbn [step]; try constructor.
  destruct (perform e w) as [r w1]. apply Hk.
Qed.

Lemma calls_at_most_finished {A} (p : Prog A) :
  calls_at_most any_call 0 p → finished p.
Proof. intros Hp. inversion Hp; simplify_eq; done. Qed.

Lemma step_finished {A} (p : Prog A) w : finished p → step p w = (p, w).
Proof. by destruct p. Qed.

(** Once the first handler has finished, further calls of the second, then
    its completion, are its completion. *)
Lemma interleave_second {A B} m (p1 : Prog A) (p2 : Prog B) w :
  finished p1 →
  interleave (replicate m Second) p1 p2 w = interleave [] p1 p2 w.
Proof.
  intros Hfin. revert p2 w. induction m as [|m IH]; intros p2 w; [done|].
  cbn [replicate interleave].
  destruct (step p2 w) as [p2' w1] eqn:E. rewrite IH.
  cbn [interleave]. rewrite !(run_finished p1) by done.
  rewrite (run_step p2 w), E. done.
Qed.

Lemma interleave_first {A B} n m (p1 : Prog A) (p2 : Prog B) w :
  calls_at_most any_call n p1 →
  interleave (replicate n First ++ replicate m Second) p1 p2 w
  = interleave [] p1 p2 w.
Proof.
  revert p1 w. induction n as [|n IH]; intros p1 w Hp.
  - apply interleave_second. by apply calls_at_most_finished.
  - cbn [replicate app interleave].
    pose proof (calls_at_most_step n p1 w Hp) as Hp'.
    destruct (step p1 w) as [p1' w1] eqn:E. cbn in Hp'.
    rewrite IH by done. cbn [interleave].
    rewrite (run_step p1 w), E. done.
Qed.

Lemma finished_advance_second {A B} m (p1 : Prog A) (p2 : Prog B) w :
  finished p1 → calls_at_most any_call m p2 →
  finished (advance (replicate m Second) p1 p2 w).1.1
  ∧ finished (advance (replicate m Second) p1 p2 w).1.2.
Proof.
  intros Hfin. revert p2 w. induction m as [|m IH]; intros p2 w Hp.
  - split; [done|]. by apply calls_at_most_finished.
  - cbn [replicate advance].
    pose proof (calls_at_most_step m p2 w Hp) as Hp'.
    destruct (step p2 w) as [p2' w1]. by apply IH.
Qed.

Lemma finished_advance_first {A B} n m (p1 : Prog A) (p2 : Prog B) w :
  calls_at_most any_call n p1 → calls_at_most any_call m p2 →
  finished (advance (replicate n First ++ replicate m Second) p1 p2 w).1.1
  ∧ finished (advance (replicate n First ++ replicate m Second) p1 p2 w).1.2.
Proof.
  revert p1 w. induction n as [|n IH]; intros p1 w Hp1 Hp2.
  - apply finished_advance_second; [|done]. by apply calls_at_most_finished.
  - cbn [replicate app advance].
    pose proof (calls_at_most_step n p1 w Hp1) as Hp'.
    destruct (step p1 w) as [p1' w1]. by apply IH.
Qed.

Lemma calls_at_most_advance {A B} n m sched (p1 : Prog A) (p2 : Prog B) w :
  calls_at_most any_call n p1 → calls_at_most any_call m p2 →
  calls_at_most any_call n (advance sched p1 p2 w).1.1
  ∧ calls_at_most any_call m (advance sched p1 p2 w).1.2.
Proof.
  revert p1 p2 w. induction sched as [|[] sched IH]; intros p1 p2 w H1 H2; [done| |].
  - cbn [advance]. destruct n as [|n].
    + rewrite step_finished by by apply calls_at_most_finished. by apply IH.
    + pose proof (calls_at_most_step n p1 w H1) as H1'.
      destruct (step p1 w) as [p1' w1]. apply IH; [|done].
      apply (calls_at_most_weaken _ n); [done|lia].
  - cbn [advance]. destruct m as [|m].
    + rewrite step_finished by by apply calls_at_most_finished. by apply IH.
    + pose proof (calls_at_most_step m p2 w H2) as H2'.
      destruct (step p2 w) as [p2' w1]. apply IH; [done|].
      apply (calls_at_most_weaken _ m); [done|lia].
Qed.

(** Every [interleave] is an [advance] along a schedule that leaves both
    handlers finished. *)
Lemma interleave_settled {A B} n m sched (p1 : Prog A) (p2 : Prog B) w :
  calls_at_most any_call n p1 → calls_at_most any_call m p2 →
  ∃ full,
    finished (advance full p1 p2 w).1.1
    ∧ finished (advance full p1 p2 w).1.2
    ∧ interleave sched p1 p2 w
      = (outcome (advance full p1 p2 w).1.1, outcome (advance full p1 p2 w).1.2,
         (advance full p1 p2 w).2).
Proof.
  intros H1 H2.
  exists (sched ++ replicate n First ++ replicate m Second).
  rewrite advance_app.
  destruct (calls_at_most_advance n m sched p1 p2 w H1 H2) as [H1' H2'].
  rewrite interleave_advance.
  destruct (advance sched p1 p2 w) as [[q1 q2] w1]. cbn [fst snd] in *.
  destruct (finished_advance_first n m q1 q2 w1 H1' H2') as [F1 F2].
  split; [done|]. split; [done|].
  rewrite <- (interleave_first n m q1 q2 w1 H1').
  rewrite interleave_advance.
  destruct (advance (replicate n First ++ replicate m Second) q1 q2 w1)
    as [[r1 r2] w2]. cbn [fst snd interleave] in *.
  by rewrite !run_finished.
Qed.

(** ** The uniqueness of links, handlers in flight *)

Lemma handle_six_calls bot env c : calls_at_most any_call 6 (handle bot env c).
Proof.
  destruct c as [i|i]; cbn [handle].
  - unfold handleLinkCommand, assign_role. bound_calls.
  - unfold handleResyncCommand. bound_calls.
Qed.

Lemma link_role_block_quiet env i n :
  makes_only (λ c, is_update c = false)
    (try_catch (assign_role env i (user_id i) ≫= λ _, mret (ReplyLinked n))
       (mret ReplyLinkError)).
Proof. unfold assign_role. only_calls. Qed.

(** A call of a handler in flight: the handler is in flight still, and the
    rows are as they were, or no row held the requester of the /link and
    its [UPDATE] was applied. *)
Lemma in_flight_step bot env c w p :
  in_flight bot env c w p →
  in_flight bot env c (step p w).2 (step p w).1
  ∧ (players (step p w).2 = players w
     ∨ ∃ i R, c = Link i
         ∧ select_by_discord_id (user_id i) (players w) = []
         ∧ players (step p w).2 = update_link (user_id i) (id R) (players w)).
Proof.
  intros [p' Hq|i Hc|i Hc Hnone|i R Hc Hnone].
  - split; [|left; by apply players_step].
    apply in_flight_quiet. by apply makes_only_step.
  - unfold handleLinkCommand. destruct (db bot) as [[]|].
    2:{ cbn. split; [|by left]. apply in_flight_quiet. constructor. }
    rewrite step_try_catch_await. destruct (fault_at 0 w) eqn:Hf.
    { rewrite perform_fault by done. cbn [fst snd]. split; [|by left].
      apply in_flight_quiet. constructor. }
    rewrite perform_ok by done. cbn [effect call_of fst snd players tick].
    split; [|by left].
    destruct (select_by_discord_id (user_id i) (players w)) as [|q qs] eqn:Hsel.
    + by apply (in_flight_looked bot env c _ i).
    + apply in_flight_quiet. rewrite bool_decide_eq_true_2 by (cbn; lia).
      constructor.
  - unfold link_after_lookup.
    rewrite step_try_catch_await. destruct (fault_at 0 w) eqn:Hf.
    { rewrite perform_fault by done. cbn [fst snd]. split; [|by left].
      apply in_flight_quiet. constructor. }
    rewrite perform_ok by done. cbn [effect call_of fst snd players tick].
    split; [|by left].
    destruct (select_by_link_code (option_code i) (players w)) as [|R rest].
    + apply in_flight_quiet. constructor.
    + by apply (in_flight_holding bot env c _ i R).
  - unfold link_after_code_lookup.
    rewrite step_try_catch_await. destruct (fault_at 0 w) eqn:Hf.
    { rewrite perform_fault by done. cbn [fst snd]. split; [|by left].
      apply in_flight_quiet. constructor. }
    rewrite perform_ok by done. cbn [effect call_of fst snd players tick set_players].
    split; [|right; by exists i, R].
    apply in_flight_quiet. apply link_role_block_quiet.
Qed.

(** A call of the other handler: rows as they were, or an [UPDATE] for
    another requester. *)
Lemma in_flight_other bot env c w w' p :
  in_flight bot env c w p →
  players w' = players w
  ∨ (∃ u pid, (∀ i, c = Link i → u ≠ user_id i)
       ∧ players w' = update_link u pid (players w)) →
  in_flight bot env c w' p.
Proof.
  intros Hp Hw'.
  assert (Hfree : ∀ i, c = Link i →
            select_by_discord_id (user_id i) (players w) = [] →
            select_by_discord_id (user_id i) (players w') = []).
  { intros i Hc Hnone. destruct Hw' as [->|(u & pid & Hu & ->)]; [done|].
    apply select_by_discord_id_nil.
    apply update_link_other_requester; [by apply Hu|].
    by apply not_elem_of_select_by_discord_id. }
  destruct Hp as [p' Hq|i Hc|i Hc Hnone|i R Hc Hnone].
  - by apply in_flight_quiet.
  - by apply in_flight_fresh.
  - apply in_flight_looked; auto.
  - apply in_flight_holding; auto.
Qed.

Lemma in_flight_handle bot env c w : in_flight bot env c w (handle bot env c).
Proof.
  destruct c as [i|i]; cbn [handle].
  - by apply (in_flight_fresh bot env _ _ i).
  - apply in_flight_quiet, handleResyncCommand_no_update.
Qed.

Lemma advance_links_unique bot env c1 c2 sched p1 p2 w :
  apart c1 c2 →
  primary_key (players w) → links_unique (players w) →
  in_flight bot env c1 w p1 → in_flight bot env c2 w p2 →
  primary_key (players (advance sched p1 p2 w).2)
  ∧ links_unique (players (advance sched p1 p2 w).2).
Proof.
  intros Hapart. revert p1 p2 w.
  induction sched as [|[] sched IH]; intros p1 p2 w Hpk Hun H1 H2; [done| |].
  - cbn [advance].
    destruct (in_flight_step bot env c1 w p1 H1) as [H1' Hrows].
    destruct (step p1 w) as [p1' w1]. cbn [fst snd] in *.
    destruct Hrows as [E|(i & R & Hc & Hnone & E)].
    + apply IH; try done; try by rewrite E.
      apply (in_flight_other bot env c2 w); auto.
    + apply IH; try done.
      * rewrite E. by apply update_link_primary_key.
      * rewrite E. by apply update_link_links_unique.
      * apply (in_flight_other bot env c2 w); [done|].
        right. exists (user_id i), (id R). split; [|done].
        intros i2 Hc2. subst c1 c2. exact Hapart.
  - cbn [advance].
    destruct (in_flight_step bot env c2 w p2 H2) as [H2' Hrows].
    destruct (step p2 w) as [p2' w1]. cbn [fst snd] in *.
    destruct Hrows as [E|(i & R & Hc & Hnone & E)].
    + apply IH; try done; try by rewrite E.
      apply (in_flight_other bot env c1 w); auto.
    + apply IH; try done.
      * rewrite E. by apply update_link_primary_key.
      * rewrite E. by apply update_link_links_unique.
      * apply (in_flight_other bot env c1 w); [done|].
        right. exists (user_id i), (id R). split; [|done].
        intros i1 Hc1. subst c1 c2. intros Heq. by apply Hapart.
Qed.

(** ** Two /link with one code: the stages *)

Ltac race_cases H :=
  unfold race_states in H;
  repeat (apply elem_of_cons in H as [H|H]; [simplify_eq|]);
  [..|by apply elem_of_nil in H].

Lemma race_step_closed t r : r ∈ race_states → race_step t r ∈ race_states.
Proof.
  intros H. race_cases H; destruct t; cbn; unfold race_states; repeat constructor.
Qed.

Lemma race_fresh_first s2 ms :
  (Fresh, s2, ms) ∈ race_states → last_writer ms ≠ Some First.
Proof. intros H. race_cases H; done. Qed.

Lemma race_fresh_second s1 ms :
  (s1, Fresh, ms) ∈ race_states → last_writer ms ≠ Some Second.
Proof. intros H. race_cases H; done. Qed.

(** When both handlers have answered: one was refused, its lookup by code
    made after the [UPDATE] of the other; or both made their [UPDATE]s
    after both lookups. *)
Lemma race_settled s1 s2 ms :
  (s1, s2, ms) ∈ race_states →
  s1 = Granting ∨ s1 = Refused → s2 = Granting ∨ s2 = Refused →
  (s1 = Granting ∧ s2 = Refused ∧ ms = [Lookup; Write First; Lookup])
  ∨ (s1 = Refused ∧ s2 = Granting ∧ ms = [Lookup; Write Second; Lookup])
  ∨ (s1 = Granting ∧ s2 = Granting
     ∧ ms = [Lookup; Lookup; Write First; Write Second])
  ∨ (s1 = Granting ∧ s2 = Granting
     ∧ ms = [Lookup; Lookup; Write Second; Write First]).
Proof.
  intros H H1 H2. race_cases H; destruct H1, H2; simplify_eq; auto 10.
Qed.

Lemma last_writer_app ms m :
  last_writer (ms ++ [m])
  = match m with Write t => Some t | Lookup => last_writer ms end.
Proof. unfold last_writer. by rewrite foldl_app. Qed.

Lemma code_order_app cs1 cs2 :
  code_order (cs1 ++ cs2) = code_order cs1 ++ code_order cs2.
Proof. unfold code_order. apply filter_app. Qed.

Lemma makes_only_impl {A} (P Q : Call → Prop) (p : Prog A) :
  (∀ c, P c → Q c) → makes_only P p → makes_only Q p.
Proof. intros HPQ Hp. induction Hp; constructor; auto. Qed.

Lemma no_faults_step {A} (p : Prog A) w : no_faults w → no_faults (step p w).2.
Proof.
  intros Hf. destruct p as [a| |X e k]; try done. cbn [step].
  pose proof (no_faults_perform e w Hf). by destruct (perform e w).
Qed.

Lemma members_step {A} (p : Prog A) w v :
  is_Some (members w !! v) → is_Some (members (step p w).2 !! v).
Proof.
  intros Hv. destruct p as [a| |X e k]; try done. cbn [step].
  pose proof (members_perform e w v Hv). by destruct (perform e w).
Qed.

Lemma role_block_can_complete_step {A} env i (p : Prog A) w :
  role_block_can_complete env i w → role_block_can_complete env i (step p w).2.
Proof. intros [?|[?|?]]; unfold role_block_can_complete; auto using members_step. Qed.

(** The calls of a step: none or one, of the kind the handler makes. *)
Lemma makes_only_step_trace {A} P (p : Prog A) w :
  makes_only P p → ∃ cs, trace (step p w).2 = trace w ++ cs ∧ Forall P cs.
Proof.
  intros [a| |X e k He Hk]; cbn [step].
  - exists []. by rewrite app_nil_r.
  - exists []. by rewrite app_nil_r.
  - exists [call_of e]. split; [|by repeat constructor].
    pose proof (trace_perform e w). by destruct (perform e w).
Qed.

Lemma code_order_none cs :
  Forall (λ c, is_code_lookup c || is_update c = false) cs → code_order cs = [].
Proof.
  unfold code_order. induction 1 as [|c cs Hc _ IH]; [done|].
  rewrite filter_cons, decide_False by congruence. exact IH.
Qed.

Lemma granting_quiet env i n p :
  granting env i n p →
  makes_only (λ c, is_code_lookup c || is_update c = false) p.
Proof. intros []; unfold assign_role; only_calls. Qed.

Lemma granting_step env i n p w :
  granting env i n p → no_faults w → role_block_can_complete env i w →
  granting env i n (step p w).1.
Proof.
  intros Hp Hf Hok. destruct Hp as [|member roleId Hid Hg Hr|member role Hid Hg Hr|].
  - unfold assign_role.
    destruct (guild i) as [[]|] eqn:Hg; [|apply granting_done].
    destruct (truthy (DISCORD_ROLE_ID env)) as [roleId|] eqn:Hr; [|apply granting_done].
    destruct Hok as [?|[?|[rs Hm]]]; [congruence|congruence|].
    cbn [step try_catch bind mbind Prog_bind await].
    rewrite perform_ok by done. cbn [effect call_of members tick fst]. rewrite Hm.
    cbn [fst]. apply (granting_member env i n (mkMember (user_id i) rs) roleId);
      [done|congruence|congruence].
  - cbn [step try_catch bind mbind Prog_bind await].
    rewrite perform_ok by done. cbn [effect call_of roles tick fst].
    case_bool_decide.
    + by apply (granting_role env i n member (mkRole roleId)).
    + apply granting_done.
  - cbn [step try_catch bind mbind Prog_bind await].
    rewrite perform_ok by done. cbn [effect call_of members tick fst].
    destruct Hok as [?|[?|[rs Hm]]]; [done|done|].
    rewrite Hid, Hm. apply granting_done.
  - apply granting_done.
Qed.

Lemma granting_finished env i n p :
  granting env i n p → finished p → outcome p = Fulfilled (ReplyLinked n).
Proof.
  intros [|member roleId Hid Hg Hr|member role Hid Hg Hr|]; try done.
  unfold assign_role. by destruct (guild i), (truthy (DISCORD_ROLE_ID env)).
Qed.

Lemma link_after_lookup_step_nil env i w :
  fault_at 0 w = false →
  select_by_link_code (option_code i) (players w) = [] →
  step (link_after_lookup env i) w
  = (Ret ReplyInvalidCode, tick (CallSelectByLinkCode (option_code i)) w).
Proof.
  intros Hf Hcode. unfold link_after_lookup.
  rewrite step_try_catch_await, perform_ok by done.
  cbn [effect call_of players tick fst snd]. by rewrite Hcode.
Qed.

Lemma link_after_code_lookup_step env i R w :
  fault_at 0 w = false →
  step (link_after_code_lookup env i R) w
  = (try_catch (assign_role env i (user_id i) ≫= λ _, mret (ReplyLinked (name R)))
       (mret ReplyLinkError),
     set_players (update_link (user_id i) (id R) (players w))
       (tick (CallUpdateLink (user_id i) (id R)) w)).
Proof.
  intros Hf. unfold link_after_code_lookup.
  by rewrite step_try_catch_await, perform_ok by done.
Qed.

(** ** Two /link with one code: every schedule *)

Section SameCode.
Variables (bot : DiscordLinkerBot) (env : ProcessEnv).
Variables (i1 i2 : Interaction) (R : Player) (ps : list Player).
Hypothesis Hdb : db bot = Some connection.
Hypothesis Hcode : option_code i2 = option_code i1.
Hypothesis Husers : user_id i1 ≠ user_id i2.
Hypothesis Hnone1 : ∀ p, p ∈ ps → discord_id p ≠ Some (user_id i1).
Hypothesis Hnone2 : ∀ p, p ∈ ps → discord_id p ≠ Some (user_id i2).
Hypothesis Hsel : select_by_link_code (option_code i1) ps = [R].

Lemma pick_code t : option_code (pick t i1 i2) = option_code i1.
Proof. by destruct t. Qed.

Lemma rows_after_free t ms :
  last_writer ms ≠ Some t →
  select_by_discord_id (user_id (pick t i1 i2)) (rows_after i1 i2 R ps ms) = [].
Proof.
  intros Hw. apply select_by_discord_id_nil. unfold rows_after.
  destruct (last_writer ms) as [[]|], t; cbn [pick]; try done.
  - by apply update_link_other_requester.
  - by apply update_link_other_requester.
Qed.

Lemma rows_after_code ms :
  select_by_link_code (option_code i1) (rows_after i1 i2 R ps ms)
  = match last_writer ms with Some _ => [] | None => [R] end.
Proof.
  unfold rows_after. destruct (last_writer ms) as [[]|]; [| |done].
  - apply select_by_link_code_nil. by apply update_link_consumes.
  - apply select_by_link_code_nil. by apply update_link_consumes.
Qed.

Lemma rows_after_write t ms :
  update_link (user_id (pick t i1 i2)) (id R) (rows_after i1 i2 R ps ms)
  = rows_after i1 i2 R ps (ms ++ [Write t]).
Proof.
  unfold rows_after. rewrite last_writer_app.
  destruct (last_writer ms) as [[]|], t; cbn [pick];
    by rewrite ?update_link_twice.
Qed.

Lemma rows_after_lookup ms :
  rows_after i1 i2 R ps (ms ++ [Lookup]) = rows_after i1 i2 R ps ms.
Proof. unfold rows_after. by rewrite last_writer_app. Qed.

Lemma mark_call_write t :
  mark_call i1 i2 R (Write t) = CallUpdateLink (user_id (pick t i1 i2)) (id R).
Proof. by destruct t. Qed.

(** One call of the handler [t]. *)
Lemma stage_sim t s p w ms :
  at_stage bot env (pick t i1 i2) R s p →
  no_faults w →
  role_block_can_complete env (pick t i1 i2) w →
  players w = rows_after i1 i2 R ps ms →
  (s = Fresh → last_writer ms ≠ Some t) →
  at_stage bot env (pick t i1 i2) R (stage_step t s ms).1 (step p w).1
  ∧ players (step p w).2 = rows_after i1 i2 R ps (ms ++ (stage_step t s ms).2)
  ∧ ∃ cs, trace (step p w).2 = trace w ++ cs
          ∧ code_order cs = mark_call i1 i2 R <$> (stage_step t s ms).2.
Proof.
  intros Hp Hf Hok Hrows Hfresh. destruct s; cbn [at_stage stage_step fst snd] in *.
  - subst p. rewrite handleLinkCommand_step_lookup;
      [|done|done|rewrite Hrows; by apply rows_after_free, Hfresh].
    cbn [fst snd players tick trace]. rewrite app_nil_r.
    split; [done|]. split; [done|]. by eexists.
  - subst p. pose proof (rows_after_code ms) as Hc.
    rewrite <- Hrows, <- (pick_code t) in Hc.
    destruct (last_writer ms) as [t'|] eqn:Hw.
    + rewrite link_after_lookup_step_nil by done.
      cbn [fst snd players tick trace]. rewrite rows_after_lookup.
      split; [done|]. split; [done|]. eexists. split; [done|].
      by rewrite pick_code.
    + rewrite (link_after_lookup_step env _ w R []) by done.
      cbn [fst snd players tick trace]. rewrite rows_after_lookup.
      split; [done|]. split; [done|]. eexists. split; [done|].
      by rewrite pick_code.
  - subst p. rewrite link_after_code_lookup_step by done.
    cbn [fst snd players set_players tick trace].
    split; [apply granting_block|].
    split; [rewrite Hrows; apply rows_after_write|].
    eexists. split; [done|].
    change (mark_call i1 i2 R <$> [Write t]) with [mark_call i1 i2 R (Write t)].
    by rewrite mark_call_write.
  - split; [by apply granting_step|]. rewrite app_nil_r.
    pose proof (granting_quiet _ _ _ _ Hp) as Hq.
    split.
    + rewrite <- Hrows. apply players_step.
      eapply makes_only_impl; [|exact Hq].
      intros c Hc. by apply orb_false_elim in Hc as [_ ?].
    + destruct (makes_only_step_trace _ p w Hq) as (cs & Hcs & Hall).
      exists cs. split; [done|]. by apply code_order_none.
  - subst p. cbn [step fst snd]. rewrite !app_nil_r.
    split; [done|]. split; [done|]. exists []. by rewrite app_nil_r.
Qed.

Lemma race_sim_step t0 t c a :
  race_sim bot env i1 i2 R ps t0 c a →
  race_sim bot env i1 i2 R ps t0
    (match t with
     | First => ((step c.1.1 c.2).1, c.1.2, (step c.1.1 c.2).2)
     | Second => (c.1.1, (step c.1.2 c.2).1, (step c.1.2 c.2).2)
     end)
    (race_step t a).
Proof.
  destruct c as [[p1 p2] w], a as [[s1 s2] ms].
  intros (H1 & H2 & Hreach & (cs & Ht & Hcs) & Hrows & Hf & Hok1 & Hok2).
  cbn [fst snd] in *.
  pose proof (race_step_closed t _ Hreach) as Hreach'.
  destruct t; cbn [race_step] in *.
  - destruct (stage_sim First s1 p1 w ms H1 Hf Hok1 Hrows)
      as (H1' & Hrows' & cs' & Ht' & Hcs').
    { intros ->. by eapply race_fresh_first. }
    repeat split; cbn [fst snd]; try done.
    + exists (cs ++ cs'). rewrite Ht', Ht, <- app_assoc. split; [done|].
      by rewrite code_order_app, fmap_app, Hcs, Hcs'.
    + by apply no_faults_step.
    + by apply role_block_can_complete_step.
    + by apply role_block_can_complete_step.
  - destruct (stage_sim Second s2 p2 w ms H2 Hf Hok2 Hrows)
      as (H2' & Hrows' & cs' & Ht' & Hcs').
    { intros ->. by eapply race_fresh_second. }
    repeat split; cbn [fst snd]; try done.
    + exists (cs ++ cs'). rewrite Ht', Ht, <- app_assoc. split; [done|].
      by rewrite code_order_app, fmap_app, Hcs, Hcs'.
    + by apply no_faults_step.
    + by apply role_block_can_complete_step.
    + by apply role_block_can_complete_step.
Qed.

Lemma race_sim_advance t0 sched p1 p2 w a :
  race_sim bot env i1 i2 R ps t0 (p1, p2, w) a →
  ∃ a', race_sim bot env i1 i2 R ps t0 (advance sched p1 p2 w) a'.
Proof.
  revert p1 p2 w a. induction sched as [|t sched IH]; intros p1 p2 w a Hsim.
  - by exists a.
  - pose proof (race_sim_step t0 t _ _ Hsim) as Hsim'.
    destruct t; cbn [advance fst snd] in *.
    + destruct (step p1 w) as [p1' w1]. by eapply IH.
    + destruct (step p2 w) as [p2' w1]. by eapply IH.
Qed.

Lemma at_stage_finished i s p :
  at_stage bot env i R s p → finished p →
  (s = Granting ∧ outcome p = Fulfilled (ReplyLinked (name R)))
  ∨ (s = Refused ∧ outcome p = Fulfilled ReplyInvalidCode).
Proof.
  destruct s; cbn [at_stage]; intros Hp Hfin.
  - subst p. unfold handleLinkCommand in Hfin. by rewrite Hdb in Hfin.
  - by subst p.
  - by subst p.
  - left. split; [done|]. by eapply granting_finished.
  - right. by subst p.
Qed.
End SameCode.

(** C3, as the handler has it. The [UPDATE] is keyed by the id of the row
    alone.  Let two requesters, neither linked, submit the code of the one
    unlinked row [R], no call failing and the role block able to complete
    for both.  If the first [handleLinkCommand] completes before the second
    starts, the first replies that the link is complete, the second that
    the code is invalid, and [R] is linked to the first requester.  If the
    handlers alternate call by call, both reply that the link is complete.
    And whatever the order in which the calls of the two handlers are
    made: either one handler makes its [UPDATE] before the lookup by code
    of the other, and then it replies that the link is complete, the other
    that the code is invalid, and [R] is linked to its requester; or both
    lookups by code come before both [UPDATE]s, and then both reply that the
    link is complete, both [UPDATE]s are made, and [R] is linked to the
    requester whose [UPDATE] came last. *)
Theorem handleLinkCommand_same_code bot env i1 i2 w R :
  db bot = Some connection →
  no_faults w →
  primary_key (players w) →
  option_code i2 = option_code i1 →
  user_id i1 ≠ user_id i2 →
  (∀ p, p ∈ players w → discord_id p ≠ Some (user_id i1)) →
  (∀ p, p ∈ players w → discord_id p ≠ Some (user_id i2)) →
  select_by_link_code (option_code i1) (players w) = [R] →
  guild i1 = None ∨ truthy (DISCORD_ROLE_ID env) = None
    ∨ is_Some (members w !! user_id i1) →
  guild i2 = None ∨ truthy (DISCORD_ROLE_ID env) = None
    ∨ is_Some (members w !! user_id i2) →
  ∃ n, players w !! n = Some R ∧
  (let '(r1, r2, w') :=
     interleave [] (handleLinkCommand bot env i1) (handleLinkCommand bot env i2) w in
   r1 = Fulfilled (ReplyLinked (name R))
   ∧ r2 = Fulfilled ReplyInvalidCode
   ∧ players w' = <[n := link_row (user_id i1) R]> (players w))
  ∧
  (let '(r1, r2, w') :=
     interleave [First; Second; First; Second]
       (handleLinkCommand bot env i1) (handleLinkCommand bot env i2) w in
   r1 = Fulfilled (ReplyLinked (name R))
   ∧ r2 = Fulfilled (ReplyLinked (name R))
   ∧ updates (calls_since w w')
     = [CallUpdateLink (user_id i1) (id R); CallUpdateLink (user_id i2) (id R)]
   ∧ players w' = <[n := link_row (user_id i2) R]> (players w))
  ∧
  ∀ sched,
    let '(r1, r2, w') :=
      interleave sched (handleLinkCommand bot env i1) (handleLinkCommand bot env i2) w in
    let lookup := CallSelectByLinkCode (option_code i1) in
    let write1 := CallUpdateLink (user_id i1) (id R) in
    let write2 := CallUpdateLink (user_id i2) (id R) in
    (code_order (calls_since w w') = [lookup; write1; lookup]
     ∧ r1 = Fulfilled (ReplyLinked (name R))
     ∧ r2 = Fulfilled ReplyInvalidCode
     ∧ players w' = <[n := link_row (user_id i1) R]> (players w))
    ∨ (code_order (calls_since w w') = [lookup; write2; lookup]
       ∧ r1 = Fulfilled ReplyInvalidCode
       ∧ r2 = Fulfilled (ReplyLinked (name R))
       ∧ players w' = <[n := link_row (user_id i2) R]> (players w))
    ∨ (code_order (calls_since w w') = [lookup; lookup; write1; write2]
       ∧ r1 = Fulfilled (ReplyLinked (name R))
       ∧ r2 = Fulfilled (ReplyLinked (name R))
       ∧ players w' = <[n := link_row (user_id i2) R]> (players w))
    ∨ (code_order (calls_since w w') = [lookup; lookup; write2; write1]
       ∧ r1 = Fulfilled (ReplyLinked (name R))
       ∧ r2 = Fulfilled (ReplyLinked (name R))
       ∧ players w' = <[n := link_row (user_id i1) R]> (players w)).
Proof.
  intros Hdb Hf Hpk Hc Hne Hnone1 Hnone2 Hsel Hm1 Hm2.
  destruct (link_same_code_two_schedules bot env i1 i2 w R
              Hdb Hf Hpk Hc Hne Hnone1 Hnone2 Hsel Hm1 Hm2)
    as (n & Hn & Hseq & Halt).
  exists n. split; [done|]. split; [done|]. split; [done|].
  intros sched.
  destruct (interleave_settled 6 6 sched
              (handleLinkCommand bot env i1) (handleLinkCommand bot env i2) w
              (handle_six_calls bot env (Link i1)) (handle_six_calls bot env (Link i2)))
    as (full & F1 & F2 & ->).
  assert (Hsim : race_sim bot env i1 i2 R (players w) (trace w)
                   (handleLinkCommand bot env i1, handleLinkCommand bot env i2, w)
                   (Fresh, Fresh, [])).
  { repeat split; try done.
    - unfold race_states. left.
    - exists []. by rewrite app_nil_r. }
  destruct (race_sim_advance bot env i1 i2 R (players w) Hdb Hc Hne Hnone1 Hnone2
              Hsel (trace w) full _ _ _ _ Hsim) as ([[s1 s2] ms] & Hsim').
  destruct (advance full (handleLinkCommand bot env i1)
              (handleLinkCommand bot env i2) w) as [[q1 q2] w'].
  destruct Hsim' as (H1 & H2 & Hreach & (cs & Ht & Hcs) & Hrows & _).
  cbn [fst snd] in *.
  rewrite (calls_since_app _ _ _ Ht), Hcs, Hrows.
  destruct (at_stage_finished bot env R Hdb i1 s1 q1 H1 F1) as [[-> ->]|[-> ->]];
    destruct (at_stage_finished bot env R Hdb i2 s2 q2 H2 F2) as [[-> ->]|[-> ->]];
    destruct (race_settled _ _ _ Hreach) as [(?&?&->)|[(?&?&->)|[(?&?&->)|(?&?&->)]]];
    auto; try done; cbn [fmap list_fmap mark_call rows_after last_writer foldl].
  - do 2 right. left. repeat split. by apply update_link_insert.
  - do 3 right. repeat split. by apply update_link_insert.
  - left. repeat split. by apply update_link_insert.
  - right. left. repeat split. by apply update_link_insert.
Qed.

(** "disc#1" and "disc#2" submit the code of Steve. *)
Lemma handleLinkCommand_same_code_scenario :
  let i1 := link_request "disc#1" "ABC123" in
  let i2 := link_request "disc#2" "ABC123" in
  let w := scenario [steve] [] in
  ∃ n, players w !! n = Some steve ∧
  (let '(r1, r2, w') :=
     interleave [] (handleLinkCommand bot_connected env_role i1)
       (handleLinkCommand bot_connected env_role i2) w in
   r1 = Fulfilled (ReplyLinked "Steve")
   ∧ r2 = Fulfilled ReplyInvalidCode
   ∧ players w' = <[n := link_row "disc#1" steve]> (players w))
  ∧
  (let '(r1, r2, w') :=
     interleave [First; Second; First; Second]
       (handleLinkCommand bot_connected env_role i1)
       (handleLinkCommand bot_connected env_role i2) w in
   r1 = Fulfilled (ReplyLinked "Steve")
   ∧ r2 = Fulfilled (ReplyLinked "Steve")
   ∧ updates (calls_since w w')
     = [CallUpdateLink "disc#1" "a1"; CallUpdateLink "disc#2" "a1"]
   ∧ players w' = <[n := link_row "disc#2" steve]> (players w))
  ∧
  ∀ sched,
    let '(r1, r2, w') :=
      interleave sched (handleLinkCommand bot_connected env_role i1)
        (handleLinkCommand bot_connected env_role i2) w in
    let lookup := CallSelectByLinkCode "ABC123" in
    let write1 := CallUpdateLink "disc#1" "a1" in
    let write2 := CallUpdateLink "disc#2" "a1" in
    (code_order (calls_since w w') = [lookup; write1; lookup]
     ∧ r1 = Fulfilled (ReplyLinked "Steve")
     ∧ r2 = Fulfilled ReplyInvalidCode
     ∧ players w' = <[n := link_row "disc#1" steve]> (players w))
    ∨ (code_order (calls_since w w') = [lookup; write2; lookup]
       ∧ r1 = Fulfilled ReplyInvalidCode
       ∧ r2 = Fulfilled (ReplyLinked "Steve")
       ∧ players w' = <[n := link_row "disc#2" steve]> (players w))
    ∨ (code_order (calls_since w w') = [lookup; lookup; write1; write2]
       ∧ r1 = Fulfilled (ReplyLinked "Steve")
       ∧ r2 = Fulfilled (ReplyLinked "Steve")
       ∧ players w' = <[n := link_row "disc#2" steve]> (players w))
    ∨ (code_order (calls_since w w') = [lookup; lookup; write2; write1]
       ∧ r1 = Fulfilled (ReplyLinked "Steve")
       ∧ r2 = Fulfilled (ReplyLinked "Steve")
       ∧ players w' = <[n := link_row "disc#1" steve]> (players w)).
Proof.
  apply (handleLinkCommand_same_code bot_connected env_role
           (link_request "disc#1" "ABC123") (link_request "disc#2" "ABC123")
           (scenario [steve] []) steve);
    [reflexivity|apply scenario_no_faults|apply primary_key_steve|reflexivity
    |discriminate| | |reflexivity|right; right; by eexists|right; right; by eexists].
  - apply nobody_linked. by repeat constructor.
  - apply nobody_linked. by repeat constructor.
Defined.

(** ** The uniqueness of links, any number of handlers in flight *)

Lemma finished_makes_only {A} P (p : Prog A) : finished p → makes_only P p.
Proof. destruct p; [constructor|constructor|done]. Qed.

Lemma busy_false u pool m i p :
  busy u pool = false → pool !! m = Some (Link i, p) → user_id i = u → finished p.
Proof.
  intros Hbusy Hm Hu. destruct (decide (finished p)) as [|Hnot]; [done|].
  assert (busy u pool = true) as E; [|congruence].
  apply existsb_exists. exists (Link i, p). split.
  - apply list_elem_of_In. by eapply list_elem_of_lookup_2.
  - cbn [fst snd]. by rewrite !bool_decide_eq_true_2.
Qed.

Lemma pool_in_flight_nil bot env w : pool_in_flight bot env [] w.
Proof. split; intros; by simplify_list_eq. Qed.

Lemma run_all_preserves bot env cs w :
  primary_key (players w) → links_unique (players w) →
  primary_key (players (run_all bot env cs w))
  ∧ links_unique (players (run_all bot env cs w)).
Proof.
  revert w. induction cs as [|c cs IH]; intros w Hpk Hun; [done|].
  cbn [run_all]. destruct (handle_preserves bot env c w Hpk Hun). by apply IH.
Qed.

(** Starting a handler. *)
Lemma pool_in_flight_start bot env c pool w :
  match c with Link i => busy (user_id i) pool = false | Resync _ => True end →
  pool_in_flight bot env pool w →
  pool_in_flight bot env (pool ++ [(c, handle bot env c)]) w.
Proof.
  intros Hidle [Hall Hpair]. split.
  - intros m c' p [Hm|[_ Hm]]%lookup_app_Some; [by eapply Hall|].
    apply list_lookup_singleton_Some in Hm as [_ [= <- <-]].
    apply in_flight_handle.
  - intros m n i1 i2 p1 p2 Hmn
      [Hm|[Hlm Hm]]%lookup_app_Some [Hn|[Hln Hn]]%lookup_app_Some Hu.
    + by eapply Hpair.
    + apply list_lookup_singleton_Some in Hn as [_ [= -> <-]].
      left. by apply (busy_false (user_id i2) pool m i1).
    + apply list_lookup_singleton_Some in Hm as [_ [= -> <-]].
      right. by apply (busy_false (user_id i1) pool n i2).
    + apply list_lookup_singleton_Some in Hm as [Em _].
      apply list_lookup_singleton_Some in Hn as [En _]. lia.
Qed.

(** A call of the handler at a position of the pool. *)
Lemma pool_in_flight_next bot env n pool w :
  primary_key (players w) → links_unique (players w) →
  pool_in_flight bot env pool w →
  primary_key (players (act bot env (Next n) pool w).2)
  ∧ links_unique (players (act bot env (Next n) pool w).2)
  ∧ pool_in_flight bot env (act bot env (Next n) pool w).1
      (act bot env (Next n) pool w).2.
Proof.
  intros Hpk Hun [Hall Hpair]. cbn [act].
  destruct (pool !! n) as [[c p]|] eqn:Hn; [|done].
  destruct (decide (finished p)) as [Hfin|Hrun].
  { rewrite step_finished by done. cbn [fst snd].
    by rewrite list_insert_id by done. }
  destruct (in_flight_step bot env c w p (Hall n c p Hn)) as [Hp' Hrows].
  destruct (step p w) as [p' w1]. cbn [fst snd] in *.
  assert (Hothers : ∀ m c' q, m ≠ n → pool !! m = Some (c', q) →
            in_flight bot env c' w1 q).
  { intros m c' q Hmn Hm. pose proof (Hall m c' q Hm) as Hq.
    destruct Hrows as [E|(i & R & -> & Hnone & E)].
    { apply (in_flight_other bot env c' w); auto. }
    destruct c' as [i'|i'].
    - destruct (decide (user_id i' = user_id i)) as [Hu|Hu].
      + destruct (Hpair m n i' i q p Hmn Hm Hn Hu) as [Hq'|Hp]; [|done].
        by apply in_flight_quiet, finished_makes_only.
      + apply (in_flight_other bot env _ w); [done|].
        right. exists (user_id i), (id R). split; [|done].
        intros i0 [= <-]. congruence.
    - apply (in_flight_other bot env _ w); [done|].
      right. exists (user_id i), (id R). split; [|done]. by intros i0 [=]. }
  split; [|split; [|split]].
  - destruct Hrows as [->|(i & R & _ & Hnone & ->)]; [done|].
    by apply update_link_primary_key.
  - destruct Hrows as [->|(i & R & _ & Hnone & ->)]; [done|].
    by apply update_link_links_unique.
  - intros m c' q [(<- & [= <- <-] & _)|[Hmn Hm]]%list_lookup_insert_Some; [done|].
    by apply (Hothers m).
  - intros m1 m2 i1 i2 p1 p2 Hm12
      [(<- & [= E1 <-] & _)|[Hn1 Hm1]]%list_lookup_insert_Some
      [(<- & [= E2 <-] & _)|[Hn2 Hm2]]%list_lookup_insert_Some Hu; [done| | |].
    + subst c. destruct (Hpair n m2 i1 i2 p p2 Hm12 Hn Hm2 Hu); [done|by right].
    + subst c. destruct (Hpair m1 n i1 i2 p1 p Hm12 Hm1 Hn Hu); [by left|done].
    + by apply (Hpair m1 m2 i1 i2).
Qed.

Lemma play_links_unique bot env acts pool w :
  one_link_each bot env acts pool w = true →
  primary_key (players w) → links_unique (players w) →
  pool_in_flight bot env pool w →
  primary_key (players (play bot env acts pool w).2)
  ∧ links_unique (players (play bot env acts pool w).2).
Proof.
  revert pool w. induction acts as [|a acts IH]; intros pool w Hacts Hpk Hun Hpool;
    [done|].
  cbn [one_link_each play] in *. apply andb_true_iff in Hacts as [Ha Hacts].
  destruct a as [c|n].
  - cbn [act] in *. apply IH; [done..|].
    apply pool_in_flight_start; [|done].
    destruct c as [i|i]; [|done]. by apply negb_true_iff.
  - destruct (pool_in_flight_next bot env n pool w Hpk Hun Hpool) as (? & ? & ?).
    destruct (act bot env (Next n) pool w) as [pool1 w1]. by apply IH.
Qed.

Lemma interleave_links_unique bot env sched c1 c2 w :
  apart c1 c2 →
  primary_key (players w) → links_unique (players w) →
  links_unique (players (interleave sched (handle bot env c1) (handle bot env c2) w).2).
Proof.
  intros Hapart Hpk Hun.
  destruct (interleave_settled 6 6 sched (handle bot env c1) (handle bot env c2) w
              (handle_six_calls bot env c1) (handle_six_calls bot env c2))
    as (full & _ & _ & ->).
  cbn [snd].
  apply (advance_links_unique bot env c1 c2); auto using in_flight_handle.
Qed.

(** C1, as the handlers have it. Let the rows of [players] have a primary
    key and at most one row hold any given [discord_id].  Handlers of /link
    and /resync are started at any time and any number of them are in flight
    at once, their calls made in any order and failing in any way; as long
    as no /link is started while a /link of the same requester is in flight,
    at most one row holds any given [discord_id] in every state reached.  In
    particular this holds after handlers run one after another, and after
    two handlers in flight at once that are not both /link of one requester.
    And a [handleLinkCommand] run on its own changes the rows only by its
    [UPDATE], made only when no row holds the requester. *)
Theorem links_unique_in_flight bot env acts w :
  primary_key (players w) →
  links_unique (players w) →
  one_link_each bot env acts [] w = true →
  links_unique (players (play bot env acts [] w).2)
  ∧ primary_key (players (play bot env acts [] w).2)
  ∧ (∀ cs, links_unique (players (run_all bot env cs w)))
  ∧ (∀ sched c1 c2, apart c1 c2 →
       links_unique
         (players (interleave sched (handle bot env c1) (handle bot env c2) w).2))
  ∧ ∀ i, players (run (handleLinkCommand bot env i) w).2 = players w
         ∨ ((∀ p, p ∈ players w → discord_id p ≠ Some (user_id i))
            ∧ ∃ R, players (run (handleLinkCommand bot env i) w).2
                   = update_link (user_id i) (id R) (players w)).
Proof.
  intros Hpk Hun Hacts.
  destruct (play_links_unique bot env acts [] w Hacts Hpk Hun
              (pool_in_flight_nil bot env w)) as [Hpk' Hun'].
  split; [done|]. split; [done|]. split; [|split].
  - intros cs. by apply run_all_preserves.
  - intros sched c1 c2 Hapart. by apply interleave_links_unique.
  - intros i.
    destruct (handleLinkCommand_store_cases bot env i w) as [?|(Hnone & R & ?)];
      [by left|right].
    split; [|by exists R]. by apply not_elem_of_select_by_discord_id.
Qed.

(** Three handlers in flight: two requesters submit the code of Steve, the
    first also asks for a resync; when the /link of the first has finished
    (the row overwritten by the second), the first submits the code of
    Alex while the /link of the second is still in flight. *)
Lemma links_unique_in_flight_scenario :
  let acts := [Start (Link (link_request "disc#1" "ABC123"));
               Start (Link (link_request "disc#2" "ABC123"));
               Start (Resync (resync_request "disc#1"));
               Next 0; Next 1; Next 2; Next 0; Next 1; Next 0; Next 2; Next 1;
               Next 0; Next 0; Next 0;
               Start (Link (link_request "disc#1" "XYZ789"));
               Next 3; Next 1; Next 3; Next 3] in
  let w := scenario [steve; alex] [] in
  one_link_each bot_connected env_role acts [] w = true
  ∧ players (play bot_connected env_role acts [] w).2
    = [mkPlayer "a1" "Steve" (Some "disc#2") None;
       mkPlayer "a2" "Alex" (Some "disc#1") None]
  ∧ links_unique (players (play bot_connected env_role acts [] w).2)
  ∧ primary_key (players (play bot_connected env_role acts [] w).2)
  ∧ (∀ cs, links_unique (players (run_all bot_connected env_role cs w)))
  ∧ (∀ sched c1 c2, apart c1 c2 →
       links_unique
         (players (interleave sched (handle bot_connected env_role c1)
                     (handle bot_connected env_role c2) w).2))
  ∧ ∀ i, players (run (handleLinkCommand bot_connected env_role i) w).2 = players w
         ∨ ((∀ p, p ∈ players w → discord_id p ≠ Some (user_id i))
            ∧ ∃ R, players (run (handleLinkCommand bot_connected env_role i) w).2
                   = update_link (user_id i) (id R) (players w)).
Proof.
  cbv zeta. split; [vm_compute; reflexivity|]. split; [vm_compute; reflexivity|].
  apply (links_unique_in_flight bot_connected env_role
           [Start (Link (link_request "disc#1" "ABC123"));
            Start (Link (link_request "disc#2" "ABC123"));
            Start (Resync (resync_request "disc#1"));
            Next 0; Next 1; Next 2; Next 0; Next 1; Next 0; Next 2; Next 1;
            Next 0; Next 0; Next 0;
            Start (Link (link_request "disc#1" "XYZ789"));
            Next 3; Next 1; Next 3; Next 3]
           (scenario [steve; alex] []));
    [apply primary_key_steve_alex|apply links_unique_steve_alex|vm_compute; reflexivity].
Defined.
